(** * acdlo: static-base model of a continuum appendage

  A verification development for the two programs of the repository:

  - [scripts/static_base_model_gen.py], the derivation script, which builds
    the forward kinematics, Jacobian, gravity vector, inertia and Coriolis
    matrices with SymPy and pickles them;
  - [src/acdlo/static_base.py], the evaluation module, which unpickles the
    expressions at import time and wraps them with [lambdify].

  SymPy expressions are embedded shallowly: an expression is the real
  function of the symbol valuation that it denotes.  [sm.diff],
  [sm.integrate] and [subs] are the derivative, the Riemann integral and
  the substitution of that function.  Python floats ([0.5], [9.81],
  [-1/2]) are read as the real numbers they are written as. *)

From Stdlib Require Import Reals Lra Lia List String Epsilon
FunctionalExtensionality ClassicalDescription.
From stdpp Require Import base gmap strings.
Import ListNotations.

Local Open Scope R_scope.

(** ** Python results *)

Module python.

(** The exceptions the two programs can meet. *)
Inductive exception : Type :=
| FileNotFoundError
| ValueError
| TypeError
| NameError.

(** A Python computation returns a value or raises. *)
Inductive result (A : Type) : Type :=
| Ok (a : A)
| Raise (e : exception).

Arguments Ok {A} a.
Arguments Raise {A} e.

Definition raises {A : Type} (r : result A) : Prop :=
  exists e, r = Raise e.

(** A positional argument of a numeric call: a sequence of numbers or a
    number. *)
Inductive arg : Type :=
| AVec (xs : list R)
| ANum (x : R).

End python.

Export python.

(** ** SymPy, as far as the two programs use it *)

Module sympy.

(** [sm.symbols('m_L m_E')]: a symbol is identified by its name. *)
Inductive symbol : Type := Symbol (name : string).

#[global] Instance symbol_eq_dec : EqDecision symbol.
Proof. solve_decision. Defined.

(** A valuation of the symbols, and the update of one symbol. *)
Definition env : Type := symbol -> R.

Definition upd (rho : env) (x : symbol) (r : R) : env :=
  fun y => if decide (y = x) then r else rho y.

(** An expression is what it denotes. *)
Definition expr : Type := env -> R.

Definition Sym (x : symbol) : expr := fun rho => rho x.
Definition Num (r : R) : expr := fun _ => r.
Definition Add (a b : expr) : expr := fun rho => a rho + b rho.
Definition Mul (a b : expr) : expr := fun rho => a rho * b rho.
Definition Neg (a : expr) : expr := fun rho => - a rho.
Definition Sub (a b : expr) : expr := fun rho => a rho - b rho.
Definition Div (a b : expr) : expr := fun rho => a rho / b rho.
Definition Pow (a : expr) (n : nat) : expr := fun rho => a rho ^ n.
Definition sin (a : expr) : expr := fun rho => Rtrigo_def.sin (a rho).
Definition cos (a : expr) : expr := fun rho => Rtrigo_def.cos (a rho).

(** The derivative of a real function at a point, as a total operator:
    the limit of the difference quotient when there is one. *)
Definition Derive (f : R -> R) (x : R) : R :=
  epsilon (inhabits 0) (fun l => derivable_pt_lim f x l).

(** The Riemann integral as a total operator.  It is what [sm.integrate]
    is asked to compute; the closed form that SymPy returns for it may be
    undefined at points where the integral itself is defined (a division by
    a coefficient that vanishes there), and a statement about [RInt] at such
    a point is a statement about the integral, not about that closed form. *)
Definition RInt (f : R -> R) (a b : R) : R :=
  epsilon (inhabits 0)
    (fun I => exists pr : Riemann_integrable f a b, RiemannInt pr = I).

(** [e.subs(x, a)] *)
Definition subs (e : expr) (x : symbol) (a : expr) : expr :=
  fun rho => e (upd rho x (a rho)).

(** [sm.diff(e, x)] *)
Definition diff (e : expr) (x : symbol) : expr :=
  fun rho => Derive (fun t => e (upd rho x t)) (rho x).

(** [sm.integrate(e, (x, a, b))] *)
Definition integrate (e : expr) (x : symbol) (a b : expr) : expr :=
  fun rho => RInt (fun t => e (upd rho x t)) (a rho) (b rho).

(** [e] mentions at most the symbols of [xs]: its value is fixed by their
    values.  This is what [free_symbols] bounds from above. *)
Definition supported (e : expr) (xs : list symbol) : Prop :=
  forall rho rho' : env,
    (forall x, In x xs -> rho x = rho' x) -> e rho = e rho'.

(** [sm.Matrix]: a shape and the entries, read with [M[i, j]]. *)
Record Matrix : Type := mkMatrix {
  rows : nat;
  cols : nat;
  ent : nat -> nat -> expr
}.

(** [sm.Matrix([e0, e1, ...])]: a column. *)
Definition column (es : list expr) : Matrix :=
  mkMatrix (List.length es) 1
    (fun i j => if Nat.eqb j 0 then nth i es (Num 0) else Num 0).

Definition zeros (r c : nat) : Matrix := mkMatrix r c (fun _ _ => Num 0).

(** [M[i, j] = e] *)
Definition mset (M : Matrix) (i j : nat) (e : expr) : Matrix :=
  mkMatrix (rows M) (cols M)
    (fun i' j' => if (Nat.eqb i' i && Nat.eqb j' j)%bool then e else ent M i' j').

Definition mmap (f : expr -> expr) (M : Matrix) : Matrix :=
  mkMatrix (rows M) (cols M) (fun i j => f (ent M i j)).

(** [M.T] *)
Definition transpose (M : Matrix) : Matrix :=
  mkMatrix (cols M) (rows M) (fun i j => ent M j i).

(** [A + B] *)
Definition madd (A B : Matrix) : Matrix :=
  mkMatrix (rows A) (cols A) (fun i j => Add (ent A i j) (ent B i j)).

(** [c * M] for a scalar [c] *)
Definition mscale (c : expr) (M : Matrix) : Matrix := mmap (Mul c) M.

(** the sum [f 0 + ... + f (n-1)] of expressions *)
Fixpoint esum (n : nat) (f : nat -> expr) : expr :=
  match n with
  | O => Num 0
  | S m => Add (esum m f) (f m)
  end.

(** [A @ B] (also [A * B] between matrices) *)
Definition mmul (A B : Matrix) : Matrix :=
  mkMatrix (rows A) (cols B)
    (fun i j => esum (cols A) (fun r => Mul (ent A i r) (ent B r j))).

(** [M.subs(x, a)], [M.diff(x)] and [sm.integrate(M, (x, a, b))] work
    entry by entry. *)
Definition msubs (M : Matrix) (x : symbol) (a : expr) : Matrix :=
  mmap (fun e => subs e x a) M.
Definition mdiff (M : Matrix) (x : symbol) : Matrix :=
  mmap (fun e => diff e x) M.
Definition mintegrate (M : Matrix) (x : symbol) (a b : expr) : Matrix :=
  mmap (fun e => integrate e x a b) M.

(** [X[k]] for a column of symbols such as [theta] *)
Definition sym_at (X : list symbol) (k : nat) : symbol :=
  nth k X (Symbol "").

(** a column of symbols used as a matrix of expressions *)
Definition symcol (X : list symbol) : Matrix := column (map Sym X).

(** [f.jacobian(X)] of a column [f]: entry [(i, k)] is [diff(f[i], X[k])]. *)
Definition jacobian (f : Matrix) (X : list symbol) : Matrix :=
  mkMatrix (rows f) (List.length X) (fun i k => diff (ent f i 0) (sym_at X k)).

(** [sm.rot_axis3(a)]:
    [[cos a, sin a, 0], [-sin a, cos a, 0], [0, 0, 1]]. *)
Definition rot_axis3 (a : expr) : Matrix :=
  mkMatrix 3 3 (fun i j =>
    match i, j with
    | 0%nat, 0%nat => cos a
    | 0%nat, 1%nat => sin a
    | 1%nat, 0%nat => Neg (sin a)
    | 1%nat, 1%nat => cos a
    | 2%nat, 2%nat => Num 1
    | _, _ => Num 0
    end).

(** [M[:r, :c]] *)
Definition top_left (r c : nat) (M : Matrix) : Matrix :=
  mkMatrix r c (ent M).

(** The value of a matrix under a valuation, as the nested list that
    [.tolist()] gives. *)
Definition meval (M : Matrix) (rho : env) : list (list R) :=
  map (fun i => map (fun j => ent M i j rho) (seq 0 (cols M))) (seq 0 (rows M)).

Definition msupported (M : Matrix) (xs : list symbol) : Prop :=
  forall i j, (i < rows M)%nat -> (j < cols M)%nat -> supported (ent M i j) xs.

(** Every entry of [M], also outside its shape, mentions at most [xs]. *)
Definition all_supported (M : Matrix) (xs : list symbol) : Prop :=
  forall i j, supported (ent M i j) xs.

(** *** [sm.lambdify]

    The first argument of [lambdify] is a tuple of parameters, each a symbol
    or a matrix of symbols.  In the generated function a matrix parameter
    [[x0, x1]] is unpacked with [[x0, x1] = arg], which raises [ValueError]
    unless the argument has as many items; the body names every symbol of
    the expression, and a symbol that no parameter binds is an undefined
    name there.

    Two limits of this model.  An expression is its denotation, so "names a
    symbol" is read as "depends on the symbol": a call that raises
    [NameError] here raises it in Python, but not conversely.  And the
    arithmetic of the reals is total: the numeric errors of a call
    ([ZeroDivisionError] and the like) are not modelled, so a result [Ok]
    is what the expression denotes, which the Python call returns only when
    its arithmetic does not fail. *)
Inductive param : Type :=
| PVec (xs : list symbol)
| PSym (x : symbol).

Definition bind_param (q : param) (a : arg) : result (list (symbol * R)) :=
  match q, a with
  | PSym x, ANum r => Ok [(x, r)]
  | PSym _, AVec _ => Raise TypeError
  | PVec xs, AVec rs =>
      if Nat.eqb (List.length xs) (List.length rs)
      then Ok (combine xs rs) else Raise ValueError
  | PVec _, ANum _ => Raise TypeError
  end.

Fixpoint bind_params (qs : list param) (args : list arg)
  : result (list (symbol * R)) :=
  match qs, args with
  | [], [] => Ok []
  | q :: qs', a :: args' =>
      match bind_param q a with
      | Raise e => Raise e
      | Ok b =>
          match bind_params qs' args' with
          | Raise e => Raise e
          | Ok b' => Ok (b ++ b')
          end
      end
  | _, _ => Raise TypeError
  end.

(** the symbols that a parameter, and a tuple of parameters, bind *)
Definition param_symbols (q : param) : list symbol :=
  match q with
  | PVec xs => xs
  | PSym x => [x]
  end.

Definition bound_symbols (qs : list param) : list symbol :=
  concat (map param_symbols qs).

Fixpoint env_of (b : list (symbol * R)) : env :=
  match b with
  | [] => fun _ => 0
  | (x, r) :: b' => upd (env_of b') x r
  end.

Definition callable : Type := list arg -> result (list (list R)).

Definition lambdify (qs : list param) (M : Matrix) : callable :=
  fun args =>
    match bind_params qs args with
    | Raise e => Raise e
    | Ok b =>
        if excluded_middle_informative (msupported M (map fst b))
        then Ok (meval M (env_of b))
        else Raise NameError
    end.

(** [np.array(f(...).apply(mp.re).tolist(), dtype=float)]: the real part of
    every entry, as a nested list. *)
Definition re (x : R) : R := x.

Definition np_array (r : result (list (list R))) : result (list (list R)) :=
  match r with
  | Ok m => Ok (map (map re) m)
  | Raise e => Raise e
  end.

End sympy.

Export sympy.

Declare Scope expr_scope.
Delimit Scope expr_scope with E.
Bind Scope expr_scope with expr.
Notation "a + b" := (Add a b) : expr_scope.
Notation "a * b" := (Mul a b) : expr_scope.
Notation "a - b" := (Sub a b) : expr_scope.
Notation "a / b" := (Div a b) : expr_scope.
Notation "- a" := (Neg a) : expr_scope.
Notation "a ^ n" := (Pow a n%nat) : expr_scope.
Notation "M .[ i , j ]" := (ent M i j) (at level 1, format "M .[ i ,  j ]").

(** ** The derivation script, [scripts/static_base_model_gen.py] *)

Module static_base_model_gen.

(** Constant parameters *)
Definition m_L : symbol := Symbol "m_L".
Definition m_E : symbol := Symbol "m_E".
Definition L : symbol := Symbol "L".
Definition D : symbol := Symbol "D".
Definition p : list symbol := [m_L; m_E; L; D].
Definition num_masses : nat := 6.
Definition gamma : symbol := Symbol "gamma".

(** Configuration variables, 2nd order *)
Definition poly_order : nat := 2.
Definition theta_0 : symbol := Symbol "theta_0".
Definition theta_1 : symbol := Symbol "theta_1".
Definition theta_2 : symbol := Symbol "theta_2".
Definition theta : list symbol := [theta_0; theta_1; theta_2].
Definition dtheta_0 : symbol := Symbol "dtheta_0".
Definition dtheta_1 : symbol := Symbol "dtheta_1".
Definition dtheta_2 : symbol := Symbol "dtheta_2".
Definition dtheta : list symbol := [dtheta_0; dtheta_1; dtheta_2].
Definition ddtheta_0 : symbol := Symbol "ddtheta_0".
Definition ddtheta_1 : symbol := Symbol "ddtheta_1".
Definition ddtheta_2 : symbol := Symbol "ddtheta_2".
Definition ddtheta : list symbol := [ddtheta_0; ddtheta_1; ddtheta_2].

Definition fk_x : symbol := Symbol "fk_x".
Definition fk_z : symbol := Symbol "fk_z".

(** Integration variables *)
Definition s : symbol := Symbol "s".
Definition v : symbol := Symbol "v".
Definition d : symbol := Symbol "d".

(** *** Forward kinematics *)

(** [alpha = theta_0 + theta_1*v + 0.5*theta_2*v**2] *)
Definition alpha : expr :=
  (Sym theta_0 + Sym theta_1 * Sym v + Num 0.5 * Sym theta_2 * Sym v ^ 2)%E.

(** [fk = sm.Matrix([fk_x, fk_z])], then [fk[0] = ...] and [fk[1] = ...] *)
Definition fk_init : Matrix := column [Sym fk_x; Sym fk_z].

Definition fk_spine : Matrix :=
  let fk := mset fk_init 0 0
              (- Sym L * integrate (sin alpha) v (Num 0) (Sym s))%E in
  mset fk 1 0 (- Sym L * integrate (cos alpha) v (Num 0) (Sym s))%E.

(** [fk.subs(1/sm.sqrt(theta_1), sm.sqrt(1/theta_1))] rewrites the printed
    form of [fk]: it replaces a subexpression by another one that has the
    same real value wherever [theta_1 > 0].  An expression is here its
    denotation, which has no printed form to rewrite, so the step leaves
    [fk] as it is; what the rewriting changes for [theta_1 <= 0], where
    SymPy works with complex branches, is outside this model. *)
Definition sqrt_pattern : expr :=
  fun rho => 1 / sqrt (rho theta_1).
Definition sqrt_replacement : expr :=
  fun rho => sqrt (1 / rho theta_1).
Definition subs_expr (M : Matrix) (pattern replacement : expr) : Matrix := M.

Definition fk_fixed : Matrix := subs_expr fk_spine sqrt_pattern sqrt_replacement.

(** [rot_alpha = sm.rot_axis3(alpha.subs(v,s))[:2,:2]] *)
Definition rot_alpha : Matrix :=
  top_left 2 2 (rot_axis3 (subs alpha v (Sym s))).

(** [fk = fk + D*rot_alpha@sm.Matrix([d, 0])] *)
Definition fk : Matrix :=
  madd fk_fixed (mmul (mscale (Sym D) rot_alpha) (column [Sym d; Num 0])).

(** [J_static = fk.jacobian(sm.Matrix([theta_0, theta_1, theta_2]))] *)
Definition J_static : Matrix := jacobian fk [theta_0; theta_1; theta_2].

(** [f_FK = sm.lambdify((theta,p,s,d), fk, "mpmath")] and the same for
    [J_static] *)
Definition f_FK : callable := lambdify [PVec theta; PVec p; PSym s; PSym d] fk.
Definition f_J : callable :=
  lambdify [PVec theta; PVec p; PSym s; PSym d] J_static.

Definition eval_J (theta p_vals s d : arg) : result (list (list R)) :=
  np_array (f_J [theta; p_vals; s; d]).

(** *** Potential (gravity) vector *)

(** [sm.sin(gamma)*fk[0] + sm.cos(gamma)*fk[1]] *)
Definition height : expr :=
  (sin (Sym gamma) * fk.[0, 0] + cos (Sym gamma) * fk.[1, 0])%E.

(** [i/num_masses + 1/(num_masses*2)] *)
Definition mass_location (i : nat) : R :=
  INR i / INR num_masses + 1 / (INR num_masses * 2).

Definition U_end : expr :=
  (Sym m_E * integrate (subs height s (Num 1)) d (Num (-1/2)) (Num (1/2)))%E.

Definition U_add (U : expr) (i : nat) : expr :=
  (U + (Sym m_L / Num (INR num_masses))
       * integrate (subs height s (Num (mass_location i))) d
           (Num (-1/2)) (Num (1/2)))%E.

Definition U : expr := fold_left U_add (seq 0 num_masses) U_end.

(** [G = sm.Matrix([9.81*(U.subs(gamma,0))]).jacobian(theta).T] *)
Definition G : Matrix :=
  transpose (jacobian (column [(Num 9.81 * subs U gamma (Num 0))%E]) theta).

(** [Gv = sm.Matrix([9.81*(U)]).jacobian(theta).T] *)
Definition Gv : Matrix :=
  transpose (jacobian (column [(Num 9.81 * U)%E]) theta).

(** *** Inertia matrix *)

(** [J = (fk.subs(s, x)).jacobian(theta)] *)
Definition J (x : R) : Matrix := jacobian (msubs fk s (Num x)) theta.

(** [sm.integrate(J.T@J, (d, -1/2, 1/2))] *)
Definition JTJ (x : R) : Matrix :=
  mintegrate (mmul (transpose (J x)) (J x)) d (Num (-1/2)) (Num (1/2)).

Definition B_end : Matrix := mscale (Sym m_E) (JTJ 1).

Definition B_add (B : Matrix) (i : nat) : Matrix :=
  madd B (mscale (Sym m_L / Num (INR num_masses))%E (JTJ (mass_location i))).

Definition B : Matrix := fold_left B_add (seq 0 num_masses) B_end.

(** *** Centrifugal/Coriolis matrix *)

Definition Christoffel (i j k : nat) : expr :=
  (Num 0.5 * (diff B.[i, j] (sym_at theta k)
              + diff B.[i, k] (sym_at theta j)
              - diff B.[j, k] (sym_at theta i)))%E.

(** [C[i,j] = C[i,j] + Christoffel*dtheta[k]] *)
Definition C_k (i j : nat) (C : Matrix) (k : nat) : Matrix :=
  mset C i j (C.[i, j] + Christoffel i j k * Sym (sym_at dtheta k))%E.

Definition C_j (i : nat) (C : Matrix) (j : nat) : Matrix :=
  fold_left (C_k i j) (seq 0 (poly_order + 1)) C.

Definition C_i (C : Matrix) (i : nat) : Matrix :=
  fold_left (C_j i) (seq 0 (poly_order + 1)) C.

Definition C : Matrix :=
  fold_left C_i (seq 0 (poly_order + 1))
    (zeros (poly_order + 1) (poly_order + 1)).

(** *** Linear factorisation by masses *)

(** [E = B*ddtheta + C*dtheta + G] *)
Definition E : Matrix :=
  madd (madd (mmul B (symcol ddtheta)) (mmul C (symcol dtheta))) G.

Definition Y : Matrix := jacobian E [m_L; m_E].
Definition dE_dmL : Matrix := mdiff E m_L.
Definition E_mL_0 : Matrix := msubs E m_L (Num 0).
Definition dE_dmE : Matrix := mdiff E m_E.
Definition E_mE_0 : Matrix := msubs E m_E (Num 0).

(** *** The cache

    The file system, restricted to the package directory [src/acdlo]: a
    path relative to it is mapped to the pickled matrix stored there.  The
    script is run from [scripts/], so its prefix [../src/acdlo/] names that
    directory. *)
Abbreviation files := (gmap string Matrix).

(** [pickle.dump(M, open("../src/acdlo/" + path, "wb"))] *)
Definition pickle_dump (M : Matrix) (path : string) (fs : files) : files :=
  <[path := M]> fs.

(** The [pickle.dump] calls of the script, in the order it runs them. *)
Definition dumps : list (string * Matrix) :=
  [ ("sympy_fcns/sb/fk", fk);
    ("sympy_fcns/sb/J_static", J_static);
    ("sympy_fcns/sb/G", G);
    ("sympy_fcns/sb/Gv", Gv);
    ("sympy_fcns/sb/B", B);
    ("sympy_fcns/sb/C", C);
    ("sympy_fcns/sb/identification/Y", Y);
    ("sympy_fcns/sb/identification/dE_dmL", dE_dmL);
    ("sympy_fcns/sb/identification/E_mL_0", E_mL_0);
    ("sympy_fcns/sb/identification/dE_dmE", dE_dmE);
    ("sympy_fcns/sb/identification/E_mE_0", E_mE_0) ].

Definition run (fs : files) : files :=
  fold_left (fun fs pm => pickle_dump (snd pm) (fst pm) fs) dumps fs.

End static_base_model_gen.

(** ** The evaluation module, [src/acdlo/static_base.py] *)

Module static_base.

Abbreviation files := static_base_model_gen.files.

(** Constant parameters *)
Definition m_L : symbol := Symbol "m_L".
Definition m_E : symbol := Symbol "m_E".
Definition L : symbol := Symbol "L".
Definition D : symbol := Symbol "D".
Definition p : list symbol := [m_L; m_E; L; D].
(** Configuration variables *)
Definition theta_0 : symbol := Symbol "theta_0".
Definition theta_1 : symbol := Symbol "theta_1".
Definition theta : list symbol := [theta_0; theta_1].
Definition dtheta_0 : symbol := Symbol "dtheta_0".
Definition dtheta_1 : symbol := Symbol "dtheta_1".
Definition dtheta : list symbol := [dtheta_0; dtheta_1].
(** Integration variables *)
Definition s : symbol := Symbol "s".
Definition d : symbol := Symbol "d".
(** Gravity direction *)
Definition gamma : symbol := Symbol "gamma".

(** The functions of the module.  Each [f_X] is a module global bound to
    [sm.lambdify(..., pickle.load(...), "mpmath")]; here it takes the
    unpickled matrix, and each [eval_X] takes the [f_X] it calls. *)
Definition f_FK (fk : Matrix) : callable :=
  lambdify [PVec theta; PVec p; PSym s; PSym d] fk.

Definition eval_fk (f_FK : callable) : callable :=
  fun args =>
    match args with
    | [theta; p_vals; s; d] => np_array (f_FK [theta; p_vals; s; d])
    | _ => Raise TypeError
    end.

Definition f_J (J_static : Matrix) : callable :=
  lambdify [PVec theta; PVec p; PSym s; PSym d] J_static.

Definition eval_J (f_J : callable) : callable :=
  fun args =>
    match args with
    | [theta; p_vals; s; d] => np_array (f_J [theta; p_vals; s; d])
    | _ => Raise TypeError
    end.

Definition f_FK_mid (fk_mid_static : Matrix) : callable :=
  lambdify [PVec theta; PVec p] fk_mid_static.

Definition eval_midpt (f_FK_mid : callable) : callable :=
  fun args =>
    match args with
    | [theta; p_vals] => np_array (f_FK_mid [theta; p_vals])
    | _ => Raise TypeError
    end.

Definition f_FK_end (fk_end_static : Matrix) : callable :=
  lambdify [PVec theta; PVec p] fk_end_static.

Definition eval_endpt (f_FK_end : callable) : callable :=
  fun args =>
    match args with
    | [theta; p_vals] => np_array (f_FK_end [theta; p_vals])
    | _ => Raise TypeError
    end.

Definition f_J_mid (J_mid_static : Matrix) : callable :=
  lambdify [PVec theta; PVec p] J_mid_static.

Definition eval_J_midpt (f_J_mid : callable) : callable :=
  fun args =>
    match args with
    | [theta; p_vals] => np_array (f_J_mid [theta; p_vals])
    | _ => Raise TypeError
    end.

Definition f_J_end (J_end_static : Matrix) : callable :=
  lambdify [PVec theta; PVec p] J_end_static.

Definition eval_J_endpt (f_J_end : callable) : callable :=
  fun args =>
    match args with
    | [theta; p_vals] => np_array (f_J_end [theta; p_vals])
    | _ => Raise TypeError
    end.

(** *** Running the module

    The state of an import: the paths unpickled so far, in order, and the
    callables bound so far in the module's namespace. *)
Record state : Type := mkState {
  loaded : list string;
  globals : gmap string callable
}.

Definition initial : state := mkState [] ∅.

Definition Py (A : Type) : Type := state -> state * result A.

#[global] Instance Py_ret : MRet Py := fun A a st => (st, Ok a).

#[global] Instance Py_bind : MBind Py := fun A B k m st =>
  match m st with
  | (st', Ok a) => k a st'
  | (st', Raise e) => (st', Raise e)
  end.

(** [pickle.load(open(Path(__file__).parent / path, "rb"))] *)
Definition pickle_load (fs : files) (path : string) : Py Matrix :=
  fun st =>
    match fs !! path with
    | Some M => (mkState (loaded st ++ [path]) (globals st), Ok M)
    | None => (st, Raise FileNotFoundError)
    end.

(** a module-level assignment or [def] of a callable *)
Definition define (name : string) (f : callable) : Py unit :=
  fun st => (mkState (loaded st) (<[name := f]> (globals st)), Ok tt).

(** [print(..., f(args))]: the call is evaluated; what is printed is not
    kept. *)
Definition print_call (f : callable) (args : list arg) : Py unit :=
  fun st =>
    match f args with
    | Ok _ => (st, Ok tt)
    | Raise e => (st, Raise e)
    end.

Definition example_args : list arg :=
  [AVec [0.1; 0.1]; AVec [0.5; 0.5; 1; 0.1]; ANum 0.5; ANum 0.1].

(** The statements of the module, in order. *)
Definition module_body (fs : files) : Py unit :=
  fk ← pickle_load fs "sympy_fcns/sb/fk";
  define "f_FK" (f_FK fk);;
  define "eval_fk" (eval_fk (f_FK fk));;
  J_static ← pickle_load fs "sympy_fcns/sb/J_static";
  define "f_J" (f_J J_static);;
  print_call (f_J J_static) example_args;;
  define "eval_J" (eval_J (f_J J_static));;
  print_call (eval_J (f_J J_static)) example_args;;
  fk_mid_static ← pickle_load fs "sympy_fcns/sb/fk_mid_static";
  define "f_FK_mid" (f_FK_mid fk_mid_static);;
  define "eval_midpt" (eval_midpt (f_FK_mid fk_mid_static));;
  fk_end_static ← pickle_load fs "sympy_fcns/sb/fk_end_static";
  define "f_FK_end" (f_FK_end fk_end_static);;
  define "eval_endpt" (eval_endpt (f_FK_end fk_end_static));;
  J_mid_static ← pickle_load fs "sympy_fcns/sb/J_mid_static";
  define "f_J_mid" (f_J_mid J_mid_static);;
  define "eval_J_midpt" (eval_J_midpt (f_J_mid J_mid_static));;
  J_end_static ← pickle_load fs "sympy_fcns/sb/J_end_static";
  define "f_J_end" (f_J_end J_end_static);;
  define "eval_J_endpt" (eval_J_endpt (f_J_end J_end_static)).

(** [import acdlo.static_base] *)
Definition import (fs : files) : state * result unit :=
  module_body fs initial.

End static_base.

(** ** What the specification says, in its own words

    The reference constructions that the derived matrices are compared
    with. *)

Module reference.

Import static_base_model_gen.

(** The Christoffel-symbol sum for entry [(i, j)] of the Coriolis matrix:
    the sum over [k] of
    [0.5 * (dB[i,j]/dtheta_k + dB[i,k]/dtheta_j - dB[j,k]/dtheta_i) * thetadot_k]. *)
Definition coriolis (i j : nat) (rho : env) : R :=
  sum_f_R0
    (fun k =>
       0.5 * (diff B.[i, j] (sym_at theta k) rho
              + diff B.[i, k] (sym_at theta j) rho
              - diff B.[j, k] (sym_at theta i) rho)
       * rho (sym_at dtheta k))
    poly_order.

(** The time derivative of the inertia matrix along [thetadot]:
    the sum over [k] of [dB[i,j]/dtheta_k * thetadot_k]. *)
Definition Bdot (i j : nat) (rho : env) : R :=
  sum_f_R0
    (fun k => diff B.[i, j] (sym_at theta k) rho * rho (sym_at dtheta k))
    poly_order.

(** The gravity-projected height [sin(gamma)*fk_x + cos(gamma)*fk_z] of the
    point at arclength [x], integrated over the cross-section offset in
    [-1/2, 1/2]. *)
Definition projected_height (x : R) (rho : env) : R :=
  RInt
    (fun t =>
       Rtrigo_def.sin (rho gamma) * fk.[0, 0] (upd (upd rho d t) s x)
       + Rtrigo_def.cos (rho gamma) * fk.[1, 0] (upd (upd rho d t) s x))
    (-1/2) (1/2).

(** The potential energy: the end mass at [s = 1] and [num_masses] point
    masses of mass [m_L/num_masses] at [i/num_masses + 1/(2*num_masses)]. *)
Definition potential (rho : env) : R :=
  rho m_E * projected_height 1 rho
  + sum_f_R0
      (fun i =>
         rho m_L / INR num_masses
         * projected_height (INR i / INR num_masses + 1 / (2 * INR num_masses)) rho)
      (num_masses - 1).

(** The inertia matrix: the end mass and the point masses, each weighting
    the cross-section integral of [J^T J] at its arclength. *)
Definition inertia (i j : nat) (rho : env) : R :=
  rho m_E * (JTJ 1).[i, j] rho
  + sum_f_R0
      (fun n =>
         rho m_L / INR num_masses
         * (JTJ (INR n / INR num_masses + 1 / (2 * INR num_masses))).[i, j] rho)
      (num_masses - 1).

(** A cache with every slot of the persisted layout and the four slots of
    the midpoint and endpoint functions, each holding a constant matrix. *)
Definition constant_cache : files :=
  list_to_map
    [ ("sympy_fcns/sb/fk", zeros 2 1);
      ("sympy_fcns/sb/J_static", zeros 2 2);
      ("sympy_fcns/sb/G", zeros 2 1);
      ("sympy_fcns/sb/Gv", zeros 2 1);
      ("sympy_fcns/sb/B", zeros 2 2);
      ("sympy_fcns/sb/C", zeros 2 2);
      ("sympy_fcns/sb/identification/Y", zeros 2 2);
      ("sympy_fcns/sb/identification/dE_dmL", zeros 2 1);
      ("sympy_fcns/sb/identification/E_mL_0", zeros 2 1);
      ("sympy_fcns/sb/identification/dE_dmE", zeros 2 1);
      ("sympy_fcns/sb/identification/E_mE_0", zeros 2 1);
      ("sympy_fcns/sb/fk_mid_static", zeros 2 1);
      ("sympy_fcns/sb/fk_end_static", zeros 2 1);
      ("sympy_fcns/sb/J_mid_static", zeros 2 2);
      ("sympy_fcns/sb/J_end_static", zeros 2 2) ].

(** The names that the statements of the evaluation module bind. *)
Definition module_names : list string :=
  ["f_FK"; "eval_fk"; "f_J"; "eval_J"; "f_FK_mid"; "eval_midpt";
   "f_FK_end"; "eval_endpt"; "f_J_mid"; "eval_J_midpt"; "f_J_end";
   "eval_J_endpt"].

(** A first-order cache.  The six slots that the evaluation module reads
    hold the derived forward kinematics with [theta_2] set to 0, its
    Jacobian in [theta_0] and [theta_1], and the spine point ([d = 0]) at
    [s = 0.5] and at [s = 1] with their Jacobians; every other slot is as
    the derivation script leaves it. *)
Definition fk_first_order : Matrix := msubs fk theta_2 (Num 0).
Definition J_first_order : Matrix := jacobian fk_first_order [theta_0; theta_1].
Definition fk_mid_first_order : Matrix :=
  msubs (msubs fk_first_order s (Num 0.5)) d (Num 0).
Definition fk_end_first_order : Matrix :=
  msubs (msubs fk_first_order s (Num 1)) d (Num 0).
Definition J_mid_first_order : Matrix :=
  jacobian fk_mid_first_order [theta_0; theta_1].
Definition J_end_first_order : Matrix :=
  jacobian fk_end_first_order [theta_0; theta_1].

Definition first_order_cache : files :=
  <["sympy_fcns/sb/J_end_static" := J_end_first_order]>
  (<["sympy_fcns/sb/J_mid_static" := J_mid_first_order]>
  (<["sympy_fcns/sb/fk_end_static" := fk_end_first_order]>
  (<["sympy_fcns/sb/fk_mid_static" := fk_mid_first_order]>
  (<["sympy_fcns/sb/J_static" := J_first_order]>
  (<["sympy_fcns/sb/fk" := fk_first_order]> (run ∅)))))).

(** The bending angle [alpha] at arclength [t] under a valuation. *)
Definition bend (rho : env) (t : R) : R :=
  rho theta_0 + rho theta_1 * t + 0.5 * rho theta_2 * t ^ 2.

(** The valuation that a call [f(theta, p_vals, s, d)] of a function
    lambdified over [(theta, p, s, d)] builds. *)
Definition valuation (t0 t1 t2 mL mE l dd sv dv : R) : env :=
  env_of [(theta_0, t0); (theta_1, t1); (theta_2, t2);
          (m_L, mL); (m_E, mE); (L, l); (D, dd); (s, sv); (d, dv)].

(** The valuation [rho] with every rate [dtheta_k] multiplied by [c]. *)
Definition scale_rates (c : R) (rho : env) : env :=
  fun x => if in_dec symbol_eq_dec x dtheta then c * rho x else rho x.

(** The valuation [rho] with both masses multiplied by [c]. *)
Definition scale_masses (c : R) (rho : env) : env :=
  fun x => if in_dec symbol_eq_dec x [m_L; m_E] then c * rho x else rho x.

(** The gravity-projected height of the spine point at arclength [x]. *)
Definition spine_height (x : R) (rho : env) : R :=
  Rtrigo_def.sin (rho gamma)
  * (- rho L * RInt (fun t => Rtrigo_def.sin (bend rho t)) 0 x)
  + Rtrigo_def.cos (rho gamma)
    * (- rho L * RInt (fun t => Rtrigo_def.cos (bend rho t)) 0 x).

(** The paths that the evaluation module unpickles, in the order of its
    statements. *)
Definition module_paths : list string :=
  ["sympy_fcns/sb/fk"; "sympy_fcns/sb/J_static";
   "sympy_fcns/sb/fk_mid_static"; "sympy_fcns/sb/fk_end_static";
   "sympy_fcns/sb/J_mid_static"; "sympy_fcns/sb/J_end_static"].

(** What the innermost loop of the Coriolis construction adds to entry
    [(i, j)] over the indices [ks], starting from [a]. *)
Definition C_acc (i j : nat) (ks : list nat) (a : expr) : expr :=
  fold_left
    (fun acc k => (acc + Christoffel i j k * Sym (sym_at dtheta k))%E) ks a.

End reference.

(** ** Facts about the SymPy operations *)

Lemma upd_eq (rho : env) (x : symbol) (r : R) : upd rho x r x = r.
Proof. unfold upd. destruct (decide (x = x)); congruence. Qed.

Lemma upd_neq (rho : env) (x y : symbol) (r : R) :
  y <> x -> upd rho x r y = rho y.
Proof. intros H. unfold upd. destruct (decide (y = x)); congruence. Qed.

Lemma upd_comm (rho : env) (x y : symbol) (a b : R) :
  x <> y -> upd (upd rho x a) y b = upd (upd rho y b) x a.
Proof.
  intros H. apply functional_extensionality. intros z. unfold upd.
  destruct (decide (z = y)), (decide (z = x)); congruence.
Qed.

Lemma upd_agree (rho rho' : env) (x : symbol) (r : R) (xs : list symbol) :
  (forall y, In y xs -> rho y = rho' y) ->
  forall y, In y (x :: xs) -> upd rho x r y = upd rho' x r y.
Proof.
  intros H y Hy. unfold upd. destruct (decide (y = x)) as [|Hne]; [reflexivity|].
  destruct Hy as [Hy|Hy]; [congruence | apply H, Hy].
Qed.

Lemma Derive_unique (f : R -> R) (x l : R) :
  derivable_pt_lim f x l -> Derive f x = l.
Proof.
  intros H. unfold Derive.
  apply (uniqueness_limite f x); [|exact H].
  apply epsilon_spec. exists l. exact H.
Qed.

Lemma RInt_unique (f : R -> R) (a b : R) (pr : Riemann_integrable f a b) :
  RInt f a b = RiemannInt pr.
Proof.
  unfold RInt.
  destruct (epsilon_spec (inhabits 0)
              (fun I => exists pr : Riemann_integrable f a b, RiemannInt pr = I))
    as [pr' H].
  - exists (RiemannInt pr), pr. reflexivity.
  - rewrite <- H. apply RiemannInt_P5.
Qed.


Lemma RInt_const (c a b : R) : RInt (fun _ => c) a b = c * (b - a).
Proof.
  transitivity (RiemannInt (RiemannInt_P14 a b c)).
  - exact (RInt_unique (fct_cte c) a b (RiemannInt_P14 a b c)).
  - apply RiemannInt_P15.
Qed.

(** Substituting a number for [y] commutes with differentiating in another
    symbol [x]. *)
Lemma subs_diff (e : expr) (x y : symbol) (c : R) :
  x <> y -> subs (diff e x) y (Num c) = diff (subs e y (Num c)) x.
Proof.
  intros H. apply functional_extensionality. intros rho.
  unfold subs, diff, Num. rewrite upd_neq by exact H.
  f_equal. apply functional_extensionality. intros t.
  rewrite upd_comm by congruence. reflexivity.
Qed.

(** The rewriting of [1/sqrt(theta_1)] into [sqrt(1/theta_1)] replaces an
    expression by one with the same denotation. *)
Lemma sqrt_workaround_sound :
  static_base_model_gen.sqrt_pattern = static_base_model_gen.sqrt_replacement.
Proof.
  apply functional_extensionality. intros rho.
  unfold static_base_model_gen.sqrt_pattern,
    static_base_model_gen.sqrt_replacement, Rdiv.
  rewrite !Rmult_1_l. symmetry. apply sqrt_inv.
Qed.

(** ** The Coriolis loop *)

Section coriolis_loop.

Import static_base_model_gen reference.

Lemma mset_same (M : Matrix) (i j : nat) (e : expr) : (mset M i j e).[i, j] = e.
Proof. cbn. rewrite !Nat.eqb_refl. reflexivity. Qed.

Lemma mset_other (M : Matrix) (i j i' j' : nat) (e : expr) :
  i' <> i \/ j' <> j -> (mset M i j e).[i', j'] = M.[i', j'].
Proof.
  intros H. cbn.
  destruct (Nat.eqb_spec i' i), (Nat.eqb_spec j' j); cbn; try reflexivity.
  destruct H; congruence.
Qed.

Lemma C_k_same (i j : nat) (ks : list nat) (C : Matrix) :
  (fold_left (C_k i j) ks C).[i, j] = C_acc i j ks C.[i, j].
Proof.
  revert C. induction ks as [|k ks IH]; intros C; [reflexivity|].
  cbn [fold_left]. rewrite IH. unfold C_k. rewrite mset_same.
  reflexivity.
Qed.

Lemma C_k_other (i j i' j' : nat) (ks : list nat) (C : Matrix) :
  i' <> i \/ j' <> j -> (fold_left (C_k i j) ks C).[i', j'] = C.[i', j'].
Proof.
  intros H. revert C. induction ks as [|k ks IH]; intros C; [reflexivity|].
  cbn [fold_left]. rewrite IH. unfold C_k. apply mset_other, H.
Qed.

Lemma C_j_other (i i' j' : nat) (js : list nat) (C : Matrix) :
  i' <> i \/ ~ In j' js -> (fold_left (C_j i) js C).[i', j'] = C.[i', j'].
Proof.
  revert C. induction js as [|j js IH]; intros C H; [reflexivity|].
  cbn [fold_left]. rewrite IH.
  - unfold C_j. apply C_k_other. destruct H as [H|H]; [left; exact H|].
    right. intros ->. apply H. left. reflexivity.
  - destruct H as [H|H]; [left; exact H|]. right. intros Hin. apply H.
    right. exact Hin.
Qed.

Lemma C_j_same (i j : nat) (js : list nat) (C : Matrix) :
  List.NoDup js -> In j js ->
  (fold_left (C_j i) js C).[i, j]
  = C_acc i j (seq 0 (poly_order + 1)) C.[i, j].
Proof.
  revert C. induction js as [|j0 js IH]; intros C Hnd Hin; [destruct Hin|].
  inversion Hnd as [|? ? Hnotin Hnd']; subst.
  cbn [fold_left]. destruct Hin as [->|Hin].
  - rewrite C_j_other by (right; exact Hnotin).
    unfold C_j. apply C_k_same.
  - rewrite IH by assumption. f_equal.
    unfold C_j. apply C_k_other. right. intros ->. contradiction.
Qed.

Lemma C_i_other (i' j' : nat) (rs : list nat) (C : Matrix) :
  ~ In i' rs -> (fold_left C_i rs C).[i', j'] = C.[i', j'].
Proof.
  revert C. induction rs as [|i rs IH]; intros C H; [reflexivity|].
  cbn [fold_left]. rewrite IH by (intros Hin; apply H; right; exact Hin).
  unfold C_i. apply C_j_other. left. intros ->. apply H. left. reflexivity.
Qed.

Lemma C_i_same (i j : nat) (rs : list nat) (C : Matrix) :
  List.NoDup rs -> In i rs -> (j <= poly_order)%nat ->
  (fold_left C_i rs C).[i, j]
  = C_acc i j (seq 0 (poly_order + 1)) C.[i, j].
Proof.
  revert C. induction rs as [|i0 rs IH]; intros C Hnd Hin Hj; [destruct Hin|].
  inversion Hnd as [|? ? Hnotin Hnd']; subst.
  cbn [fold_left]. destruct Hin as [->|Hin].
  - rewrite C_i_other by exact Hnotin.
    unfold C_i. apply C_j_same; [apply seq_NoDup|].
    apply in_seq. lia.
  - rewrite IH by assumption. f_equal.
    unfold C_i. apply C_j_other. left. intros ->. contradiction.
Qed.

(** Entry [(i, j)] of [C] is the accumulation over [k] from zero. *)
Lemma C_entry (i j : nat) :
  (i <= poly_order)%nat -> (j <= poly_order)%nat ->
  C.[i, j] = C_acc i j (seq 0 (poly_order + 1)) (Num 0).
Proof.
  intros Hi Hj. unfold C.
  rewrite C_i_same; [reflexivity|apply seq_NoDup| |exact Hj].
  apply in_seq. lia.
Qed.

Lemma fold_left_sum_f_R0 (f : nat -> R) (n : nat) :
  fold_left (fun r k => r + f k) (seq 0 (S n)) 0 = sum_f_R0 f n.
Proof.
  induction n as [|n IH].
  - cbn. lra.
  - rewrite seq_S, fold_left_app, IH. reflexivity.
Qed.

Lemma C_acc_eval (i j : nat) (ks : list nat) (a : expr) (rho : env) :
  C_acc i j ks a rho
  = fold_left
      (fun r k => r + Christoffel i j k rho * rho (sym_at dtheta k)) ks (a rho).
Proof.
  revert a. induction ks as [|k ks IH]; intros a; [reflexivity|].
  cbn [C_acc fold_left]. apply IH.
Qed.

Lemma C_entry_eval (i j : nat) (rho : env) :
  (i <= poly_order)%nat -> (j <= poly_order)%nat ->
  C.[i, j] rho = reference.coriolis i j rho.
Proof.
  intros Hi Hj. rewrite C_entry by assumption. rewrite C_acc_eval.
  replace (poly_order + 1)%nat with (S poly_order) by lia.
  unfold Num. rewrite fold_left_sum_f_R0. reflexivity.
Qed.

End coriolis_loop.

Section coriolis_claims.

Import static_base_model_gen reference.

Lemma C_shape : rows C = (poly_order + 1)%nat /\ cols C = (poly_order + 1)%nat.
Proof. split; reflexivity. Qed.

(** C1.  For all indices [i], [j] in [0..poly_order], the entry [C[i,j]]
    that the triple loop of the derivation script leaves in the Coriolis
    matrix is the Christoffel-symbol sum over [k] of
    [0.5*(dB[i,j]/dtheta_k + dB[i,k]/dtheta_j - dB[j,k]/dtheta_i)*dtheta_k],
    with [B] the derived inertia matrix. *)
Theorem C1_coriolis_is_christoffel_sum (i j : nat) (rho : env) :
  (i <= poly_order)%nat -> (j <= poly_order)%nat ->
  C.[i, j] rho
  = sum_f_R0
      (fun k =>
         0.5 * (diff B.[i, j] (sym_at theta k) rho
                + diff B.[i, k] (sym_at theta j) rho
                - diff B.[j, k] (sym_at theta i) rho)
         * rho (sym_at dtheta k))
      poly_order.
Proof. intros Hi Hj. apply C_entry_eval; assumption. Qed.

Lemma C1_coriolis_is_christoffel_sum_witness :
  C.[0, 1] (fun _ => 1)
  = sum_f_R0
      (fun k =>
         0.5 * (diff B.[0, 1] (sym_at theta k) (fun _ => 1)
                + diff B.[0, k] (sym_at theta 1) (fun _ => 1)
                - diff B.[1, k] (sym_at theta 0) (fun _ => 1))
         * 1)
      poly_order.
Proof.
  apply (C1_coriolis_is_christoffel_sum 0 1 (fun _ => 1));
    unfold poly_order; lia.
Defined.

(** C3.  For all [theta], [dtheta] and [p], the matrix [Bdot - 2C] is
    skew-symmetric, where [Bdot[i,j]] is the sum over [k] of
    [dB[i,j]/dtheta_k * dtheta_k] and [C] is the derived Coriolis matrix. *)
Theorem C3_Bdot_minus_2C_skew (i j : nat) (rho : env) :
  (i <= poly_order)%nat -> (j <= poly_order)%nat ->
  Bdot i j rho - 2 * C.[i, j] rho = - (Bdot j i rho - 2 * C.[j, i] rho).
Proof.
  intros Hi Hj. rewrite !C_entry_eval by assumption.
  unfold coriolis, Bdot, poly_order. cbn [sum_f_R0].
  replace 0.5 with (/ 2) by lra. field.
Qed.

Lemma C3_Bdot_minus_2C_skew_witness :
  Bdot 0 2 (fun _ => 1) - 2 * C.[0, 2] (fun _ => 1)
  = - (Bdot 2 0 (fun _ => 1) - 2 * C.[2, 0] (fun _ => 1)).
Proof.
  apply (C3_Bdot_minus_2C_skew 0 2 (fun _ => 1)); unfold poly_order; lia.
Defined.

End coriolis_claims.

(** ** The inertia matrix *)

Section inertia.

Import static_base_model_gen reference.

Lemma esum_ext (n : nat) (f g : nat -> expr) :
  (forall r, f r = g r) -> esum n f = esum n g.
Proof.
  intros H. induction n as [|n IH]; [reflexivity|].
  cbn. rewrite IH, H. reflexivity.
Qed.

Lemma Mul_comm (a b : expr) : (a * b)%E = (b * a)%E.
Proof.
  apply functional_extensionality. intros rho. unfold Mul. apply Rmult_comm.
Qed.

(** [M^T @ M] is symmetric, and stays so under entrywise integration. *)
Lemma gram_symmetric (M : Matrix) (i j : nat) :
  (mmul (transpose M) M).[i, j] = (mmul (transpose M) M).[j, i].
Proof. cbn. apply esum_ext. intros r. apply Mul_comm. Qed.

Lemma JTJ_symmetric (x : R) (i j : nat) : (JTJ x).[i, j] = (JTJ x).[j, i].
Proof.
  unfold JTJ, mintegrate, mmap. cbn [ent]. rewrite (gram_symmetric (J x) i j).
  reflexivity.
Qed.

Lemma B_add_entry (M : Matrix) (n i j : nat) :
  (B_add M n).[i, j]
  = (M.[i, j] + Sym m_L / Num (INR num_masses) * (JTJ (mass_location n)).[i, j])%E.
Proof. reflexivity. Qed.

Lemma B_fold_symmetric (ns : list nat) (M : Matrix) :
  (forall i j, M.[i, j] = M.[j, i]) ->
  forall i j, (fold_left B_add ns M).[i, j] = (fold_left B_add ns M).[j, i].
Proof.
  revert M. induction ns as [|n ns IH]; intros M HM; [exact HM|].
  cbn [fold_left]. apply IH. intros i j.
  rewrite !B_add_entry, (HM i j), (JTJ_symmetric _ i j). reflexivity.
Qed.

Lemma B_symmetric (i j : nat) : B.[i, j] = B.[j, i].
Proof.
  unfold B. apply B_fold_symmetric. intros i' j'.
  unfold B_end, mscale, mmap. cbn [ent]. rewrite (JTJ_symmetric 1 i' j').
  reflexivity.
Qed.

Lemma B_shape : rows B = (poly_order + 1)%nat /\ cols B = (poly_order + 1)%nat.
Proof. split; reflexivity. Qed.

Lemma transpose_symmetric (M : Matrix) :
  rows M = cols M -> (forall i j, M.[i, j] = M.[j, i]) -> transpose M = M.
Proof.
  destruct M as [r c e]. cbn. intros -> H. unfold transpose. cbn. f_equal.
  apply functional_extensionality. intros i.
  apply functional_extensionality. intros j. apply H.
Qed.

Lemma fold_left_sum_from (f : nat -> R) (n : nat) (a : R) :
  fold_left (fun r k => r + f k) (seq 0 (S n)) a = a + sum_f_R0 f n.
Proof.
  induction n as [|n IH].
  - reflexivity.
  - rewrite seq_S, fold_left_app, IH. cbn. ring.
Qed.

Lemma B_fold_eval (ns : list nat) (M : Matrix) (i j : nat) (rho : env) :
  (fold_left B_add ns M).[i, j] rho
  = fold_left
      (fun r n =>
         r + rho m_L / INR num_masses * (JTJ (mass_location n)).[i, j] rho)
      ns (M.[i, j] rho).
Proof.
  revert M. induction ns as [|n ns IH]; intros M; [reflexivity|].
  cbn [fold_left]. rewrite IH. reflexivity.
Qed.

Lemma mass_location_eq (i : nat) :
  mass_location i = INR i / INR num_masses + 1 / (2 * INR num_masses).
Proof. unfold mass_location. rewrite (Rmult_comm 2). reflexivity. Qed.

Lemma B_entry_eval (i j : nat) (rho : env) : B.[i, j] rho = inertia i j rho.
Proof.
  unfold B. rewrite B_fold_eval.
  change (seq 0 num_masses) with (seq 0 (S (num_masses - 1))).
  rewrite fold_left_sum_from. unfold inertia. f_equal.
  apply sum_eq. intros n _. rewrite mass_location_eq. reflexivity.
Qed.

(** C2.  The derived inertia matrix is symmetric for every [theta] and [p]:
    [B] equals its transpose, entry by entry and as expressions; each entry
    is the mass-weighted sum, over the end mass and the [num_masses] point
    masses, of the cross-section integral of [J^T J]. *)
Theorem C2_inertia_symmetric :
  transpose B = B
  /\ (forall i j, B.[i, j] = B.[j, i])
  /\ (forall i j rho, B.[i, j] rho = inertia i j rho).
Proof.
  split; [|split].
  - apply transpose_symmetric; [reflexivity|apply B_symmetric].
  - apply B_symmetric.
  - apply B_entry_eval.
Qed.

End inertia.

(** ** The gravity vector *)

Section gravity.

Import static_base_model_gen reference.

Lemma height_subs_eval (x t : R) (rho : env) :
  subs height s (Num x) (upd rho d t)
  = Rtrigo_def.sin (rho gamma) * fk.[0, 0] (upd (upd rho d t) s x)
    + Rtrigo_def.cos (rho gamma) * fk.[1, 0] (upd (upd rho d t) s x).
Proof.
  unfold subs, height, Add, Mul, sin, cos, Sym, Num.
  rewrite !(upd_neq _ s gamma) by discriminate.
  rewrite !(upd_neq _ d gamma) by discriminate.
  reflexivity.
Qed.

Lemma integrate_height_eval (x : R) (rho : env) :
  integrate (subs height s (Num x)) d (Num (-1/2)) (Num (1/2)) rho
  = projected_height x rho.
Proof.
  unfold integrate, projected_height, Num. f_equal.
Qed.

Lemma U_fold_eval (ns : list nat) (U0 : expr) (rho : env) :
  fold_left U_add ns U0 rho
  = fold_left
      (fun r i =>
         r + rho m_L / INR num_masses * projected_height (mass_location i) rho)
      ns (U0 rho).
Proof.
  revert U0. induction ns as [|n ns IH]; intros U0; [reflexivity|].
  cbn [fold_left]. rewrite IH. reflexivity.
Qed.

Lemma U_eval (rho : env) : U rho = potential rho.
Proof.
  unfold U. rewrite U_fold_eval.
  change (seq 0 num_masses) with (seq 0 (S (num_masses - 1))).
  rewrite fold_left_sum_from. unfold potential. f_equal.
  apply sum_eq. intros n _. rewrite mass_location_eq. reflexivity.
Qed.

Lemma U_potential : U = potential.
Proof. apply functional_extensionality. exact U_eval. Qed.

Lemma theta_not_gamma (k : nat) : sym_at theta k <> gamma.
Proof. destruct k as [|[|[|[|k]]]]; discriminate. Qed.

Lemma G_entry (k : nat) (rho : env) :
  G.[k, 0] rho
  = Derive
      (fun t => 9.81 * potential (upd (upd rho (sym_at theta k) t) gamma 0))
      (rho (sym_at theta k)).
Proof.
  change (G.[k, 0] rho)
    with (diff (Num 9.81 * subs U gamma (Num 0))%E (sym_at theta k) rho).
  rewrite U_potential. reflexivity.
Qed.

Lemma Gv_entry (k : nat) (rho : env) :
  Gv.[k, 0] rho
  = Derive (fun t => 9.81 * potential (upd rho (sym_at theta k) t))
      (rho (sym_at theta k)).
Proof.
  change (Gv.[k, 0] rho) with (diff (Num 9.81 * U)%E (sym_at theta k) rho).
  rewrite U_potential. reflexivity.
Qed.

Lemma Gv_at_gamma_0 : msubs Gv gamma (Num 0) = G.
Proof.
  unfold msubs, mmap, G, Gv, transpose, jacobian. cbn [rows cols ent].
  f_equal.
  apply functional_extensionality. intros i.
  apply functional_extensionality. intros j.
  rewrite subs_diff by apply theta_not_gamma.
  f_equal. destruct j as [|[|j]]; reflexivity.
Qed.

(** C4.  The potential energy [U] is the sum, over the end mass at [s = 1]
    and the [num_masses] point masses of mass [m_L/num_masses] at arclengths
    [i/num_masses + 1/(2*num_masses)], of the gravity-projected height
    integrated over [d] in [-1/2, 1/2]; [G] is the [theta]-gradient of
    [9.81*U] at [gamma = 0] and [Gv] the same with [gamma] left symbolic, so
    [G] is [Gv] with 0 substituted for [gamma]. *)
Theorem C4_gravity_gradient :
  (forall rho, U rho = potential rho)
  /\ (forall k rho,
        G.[k, 0] rho
        = Derive
            (fun t => 9.81 * potential (upd (upd rho (sym_at theta k) t) gamma 0))
            (rho (sym_at theta k)))
  /\ (forall k rho,
        Gv.[k, 0] rho
        = Derive (fun t => 9.81 * potential (upd rho (sym_at theta k) t))
            (rho (sym_at theta k)))
  /\ msubs Gv gamma (Num 0) = G
  /\ (forall k rho, G.[k, 0] rho = Gv.[k, 0] (upd rho gamma 0)).
Proof.
  split; [exact U_eval|]. split; [exact G_entry|]. split; [exact Gv_entry|].
  split; [exact Gv_at_gamma_0|].
  intros k rho. rewrite <- Gv_at_gamma_0. reflexivity.
Qed.

End gravity.

(** ** Which symbols an expression mentions *)

Section supports.

Import reference.

Lemma supported_Sym (x : symbol) (xs : list symbol) :
  In x xs -> supported (Sym x) xs.
Proof. intros H rho rho' Hag. apply Hag, H. Qed.

Lemma supported_Num (r : R) (xs : list symbol) : supported (Num r) xs.
Proof. intros rho rho' _. reflexivity. Qed.

Lemma supported_Add (a b : expr) (xs : list symbol) :
  supported a xs -> supported b xs -> supported (a + b)%E xs.
Proof. intros Ha Hb rho rho' H. unfold Add. rewrite (Ha _ _ H), (Hb _ _ H). reflexivity. Qed.

Lemma supported_Mul (a b : expr) (xs : list symbol) :
  supported a xs -> supported b xs -> supported (a * b)%E xs.
Proof. intros Ha Hb rho rho' H. unfold Mul. rewrite (Ha _ _ H), (Hb _ _ H). reflexivity. Qed.

Lemma supported_Sub (a b : expr) (xs : list symbol) :
  supported a xs -> supported b xs -> supported (a - b)%E xs.
Proof. intros Ha Hb rho rho' H. unfold Sub. rewrite (Ha _ _ H), (Hb _ _ H). reflexivity. Qed.

Lemma supported_Div (a b : expr) (xs : list symbol) :
  supported a xs -> supported b xs -> supported (a / b)%E xs.
Proof. intros Ha Hb rho rho' H. unfold Div. rewrite (Ha _ _ H), (Hb _ _ H). reflexivity. Qed.

Lemma supported_Neg (a : expr) (xs : list symbol) :
  supported a xs -> supported (- a)%E xs.
Proof. intros Ha rho rho' H. unfold Neg. rewrite (Ha _ _ H). reflexivity. Qed.

Lemma supported_Pow (a : expr) (n : nat) (xs : list symbol) :
  supported a xs -> supported (a ^ n)%E xs.
Proof. intros Ha rho rho' H. unfold Pow. rewrite (Ha _ _ H). reflexivity. Qed.

Lemma supported_sin (a : expr) (xs : list symbol) :
  supported a xs -> supported (sin a) xs.
Proof. intros Ha rho rho' H. unfold sin. rewrite (Ha _ _ H). reflexivity. Qed.

Lemma supported_cos (a : expr) (xs : list symbol) :
  supported a xs -> supported (cos a) xs.
Proof. intros Ha rho rho' H. unfold cos. rewrite (Ha _ _ H). reflexivity. Qed.

Lemma supported_weaken (e : expr) (xs ys : list symbol) :
  supported e xs -> incl xs ys -> supported e ys.
Proof. intros He Hin rho rho' H. apply He. intros x Hx. apply H, Hin, Hx. Qed.

(** [subs] and [integrate] bind their symbol. *)
Lemma supported_subs (e a : expr) (x : symbol) (xs : list symbol) :
  supported e (x :: xs) -> supported a xs -> supported (subs e x a) xs.
Proof.
  intros He Ha rho rho' H. unfold subs. rewrite (Ha _ _ H).
  apply He. apply upd_agree, H.
Qed.

Lemma supported_integrate (e a b : expr) (x : symbol) (xs : list symbol) :
  supported e (x :: xs) -> supported a xs -> supported b xs ->
  supported (integrate e x a b) xs.
Proof.
  intros He Ha Hb rho rho' H. unfold integrate.
  rewrite (Ha _ _ H), (Hb _ _ H). f_equal.
  apply functional_extensionality. intros t. apply He. apply upd_agree, H.
Qed.

Lemma Derive_const (c x : R) : Derive (fun _ => c) x = 0.
Proof. apply Derive_unique. exact (derivable_pt_lim_const c x). Qed.

(** The derivative mentions no more than the expression; in a symbol that
    the expression does not mention it is the derivative of a constant. *)
Lemma supported_diff (e : expr) (x : symbol) (xs : list symbol) :
  supported e xs -> supported (diff e x) xs.
Proof.
  intros He rho rho' H. unfold diff.
  destruct (in_dec symbol_eq_dec x xs) as [Hin|Hout].
  - rewrite (H x Hin). f_equal.
    apply functional_extensionality. intros t. apply He.
    intros y Hy. apply (upd_agree rho rho' x t xs H). right. exact Hy.
  - assert (Hc : forall (r : env) t, e (upd r x t) = e r).
    { intros r t. apply He. intros y Hy. apply upd_neq. intros ->. contradiction. }
    replace (fun t => e (upd rho x t)) with (fun _ : R => e rho)
      by (apply functional_extensionality; intros t; symmetry; apply Hc).
    replace (fun t => e (upd rho' x t)) with (fun _ : R => e rho')
      by (apply functional_extensionality; intros t; symmetry; apply Hc).
    rewrite !Derive_const. reflexivity.
Qed.

Lemma supported_esum (n : nat) (f : nat -> expr) (xs : list symbol) :
  (forall r, supported (f r) xs) -> supported (esum n f) xs.
Proof.
  intros H. induction n as [|n IH]; cbn.
  - apply supported_Num.
  - apply supported_Add; [exact IH|apply H].
Qed.

Lemma supported_nth (es : list expr) (i : nat) (xs : list symbol) :
  Forall (fun e => supported e xs) es -> supported (nth i es (Num 0)) xs.
Proof.
  intros H. revert i. induction H as [|e es He _ IH]; intros [|i]; cbn;
    try apply supported_Num; [exact He|apply IH].
Qed.

Lemma all_supported_column (es : list expr) (xs : list symbol) :
  Forall (fun e => supported e xs) es -> all_supported (column es) xs.
Proof.
  intros H i j. cbn. destruct (Nat.eqb j 0).
  - apply supported_nth, H.
  - apply supported_Num.
Qed.

Lemma all_supported_mset (M : Matrix) (i j : nat) (e : expr) (xs : list symbol) :
  all_supported M xs -> supported e xs -> all_supported (mset M i j e) xs.
Proof.
  intros HM He i' j'. cbn. destruct (Nat.eqb i' i && Nat.eqb j' j)%bool;
    [exact He|apply HM].
Qed.

Lemma all_supported_madd (A B : Matrix) (xs : list symbol) :
  all_supported A xs -> all_supported B xs -> all_supported (madd A B) xs.
Proof. intros HA HB i j. cbn. apply supported_Add; [apply HA|apply HB]. Qed.

Lemma all_supported_mscale (c : expr) (M : Matrix) (xs : list symbol) :
  supported c xs -> all_supported M xs -> all_supported (mscale c M) xs.
Proof. intros Hc HM i j. cbn. apply supported_Mul; [exact Hc|apply HM]. Qed.

Lemma all_supported_mmul (A B : Matrix) (xs : list symbol) :
  all_supported A xs -> all_supported B xs -> all_supported (mmul A B) xs.
Proof.
  intros HA HB i j. cbn. apply supported_esum. intros r.
  apply supported_Mul; [apply HA|apply HB].
Qed.

Lemma all_supported_transpose (M : Matrix) (xs : list symbol) :
  all_supported M xs -> all_supported (transpose M) xs.
Proof. intros HM i j. apply HM. Qed.

Lemma all_supported_top_left (r c : nat) (M : Matrix) (xs : list symbol) :
  all_supported M xs -> all_supported (top_left r c M) xs.
Proof. intros HM i j. apply HM. Qed.

Lemma all_supported_jacobian (f : Matrix) (X xs : list symbol) :
  all_supported f xs -> all_supported (jacobian f X) xs.
Proof. intros Hf i k. cbn. apply supported_diff, Hf. Qed.

Lemma all_supported_mdiff (M : Matrix) (x : symbol) (xs : list symbol) :
  all_supported M xs -> all_supported (mdiff M x) xs.
Proof. intros HM i j. cbn. apply supported_diff, HM. Qed.

Lemma all_supported_msubs (M : Matrix) (x : symbol) (a : expr) (xs : list symbol) :
  all_supported M (x :: xs) -> supported a xs -> all_supported (msubs M x a) xs.
Proof. intros HM Ha i j. cbn. apply supported_subs; [apply HM|exact Ha]. Qed.

Lemma all_supported_mintegrate (M : Matrix) (x : symbol) (a b : expr)
    (xs : list symbol) :
  all_supported M (x :: xs) -> supported a xs -> supported b xs ->
  all_supported (mintegrate M x a b) xs.
Proof.
  intros HM Ha Hb i j. cbn. apply supported_integrate; [apply HM|exact Ha|exact Hb].
Qed.

Lemma all_supported_rot_axis3 (a : expr) (xs : list symbol) :
  supported a xs -> all_supported (rot_axis3 a) xs.
Proof.
  intros Ha i j. cbn.
  destruct i as [|[|[|i]]], j as [|[|[|j]]];
    first [ apply supported_Num
          | apply supported_cos, Ha
          | apply supported_sin, Ha
          | apply supported_Neg, supported_sin, Ha ].
Qed.

Lemma all_supported_weaken (M : Matrix) (xs ys : list symbol) :
  all_supported M xs -> incl xs ys -> all_supported M ys.
Proof. intros HM Hin i j. apply (supported_weaken _ xs); [apply HM|exact Hin]. Qed.

Lemma all_supported_msupported (M : Matrix) (xs : list symbol) :
  all_supported M xs -> msupported M xs.
Proof. intros HM i j _ _. apply HM. Qed.

End supports.

Create HintDb supp.

#[local] Hint Resolve supported_Num supported_Add supported_Mul supported_Sub
  supported_Div supported_Neg supported_Pow supported_sin supported_cos
  supported_subs supported_integrate supported_diff supported_esum
  all_supported_madd all_supported_mscale all_supported_mmul
  all_supported_transpose all_supported_top_left all_supported_jacobian
  all_supported_mdiff all_supported_msubs all_supported_mintegrate
  all_supported_rot_axis3 all_supported_mset : supp.

(** a symbol of a literal list *)
Ltac in_list := cbn; repeat first [left; reflexivity | right]; fail.

#[local] Hint Extern 1 (supported (Sym _) _) =>
  apply supported_Sym; in_list : supp.

#[local] Hint Extern 1 (all_supported (column _) _) =>
  apply all_supported_column; repeat apply Forall_cons; try apply Forall_nil : supp.

(** ** The symbols of the cached expressions *)

Section artifact_symbols.

Import static_base_model_gen reference.

Lemma alpha_supported : supported alpha [v; theta_0; theta_1; theta_2; L; D; s; d].
Proof. unfold alpha. auto 10 with supp. Qed.

Lemma fk_spine_supported :
  all_supported fk_spine [theta_0; theta_1; theta_2; L; D; s; d].
Proof.
  pose proof alpha_supported as Ha.
  intros i j. unfold fk_spine, fk_init.
  destruct i as [|[|i]], j as [|j]; cbn; auto 8 with supp.
  destruct i; auto with supp.
Qed.

Lemma fk_supported : all_supported fk [theta_0; theta_1; theta_2; L; D; s; d].
Proof.
  pose proof alpha_supported as Ha. pose proof fk_spine_supported as Hs.
  unfold fk, fk_fixed, subs_expr, rot_alpha.
  auto 12 with supp.
Qed.

(** inclusion between two literal lists of symbols *)
Ltac incl_list := intros ? ?; cbn in *; intuition.

Lemma fk_supported_sig : all_supported fk (theta ++ p ++ [s; d]).
Proof. apply (all_supported_weaken _ _ _ fk_supported). incl_list. Qed.

Lemma J_static_supported : all_supported J_static (theta ++ p ++ [s; d]).
Proof. unfold J_static. apply all_supported_jacobian, fk_supported_sig. Qed.

Lemma height_supported :
  supported height (s :: d :: gamma :: theta ++ p).
Proof.
  assert (Hfk : all_supported fk (s :: d :: gamma :: theta ++ p))
    by (apply (all_supported_weaken _ _ _ fk_supported); incl_list).
  unfold height. pose proof (Hfk 0%nat 0%nat). pose proof (Hfk 1%nat 0%nat).
  auto 8 with supp.
Qed.

Lemma U_fold_supported (ns : list nat) (U0 : expr) :
  supported U0 (gamma :: theta ++ p) ->
  supported (fold_left U_add ns U0) (gamma :: theta ++ p).
Proof.
  pose proof height_supported as Hh.
  revert U0. induction ns as [|n ns IH]; intros U0 H0; [exact H0|].
  cbn [fold_left]. apply IH. unfold U_add. auto 8 with supp.
Qed.

Lemma U_supported : supported U (gamma :: theta ++ p).
Proof.
  pose proof height_supported as Hh.
  unfold U. apply U_fold_supported. unfold U_end. auto 8 with supp.
Qed.

Lemma Gv_supported : all_supported Gv (theta ++ [gamma] ++ p).
Proof.
  assert (HU : supported U (theta ++ [gamma] ++ p))
    by (apply (supported_weaken _ _ _ U_supported); incl_list).
  unfold Gv. auto 8 with supp.
Qed.

Lemma G_supported : all_supported G (theta ++ p).
Proof.
  pose proof U_supported as HU.
  unfold G. auto 8 with supp.
Qed.

Lemma JTJ_supported (x : R) : all_supported (JTJ x) (theta ++ p).
Proof.
  assert (Hfk : all_supported fk (s :: d :: theta ++ p))
    by (apply (all_supported_weaken _ _ _ fk_supported); incl_list).
  unfold JTJ, J. auto 10 with supp.
Qed.

Lemma B_fold_supported (ns : list nat) (M : Matrix) :
  all_supported M (theta ++ p) ->
  all_supported (fold_left B_add ns M) (theta ++ p).
Proof.
  revert M. induction ns as [|n ns IH]; intros M HM; [exact HM|].
  cbn [fold_left]. apply IH. unfold B_add.
  pose proof (JTJ_supported (mass_location n)). auto 8 with supp.
Qed.

Lemma B_supported : all_supported B (theta ++ p).
Proof.
  unfold B. apply B_fold_supported. unfold B_end.
  pose proof (JTJ_supported 1). auto 8 with supp.
Qed.

Lemma Christoffel_supported (i j k : nat) :
  supported (Christoffel i j k) (theta ++ dtheta ++ p).
Proof.
  assert (HB : all_supported B (theta ++ dtheta ++ p))
    by (apply (all_supported_weaken _ _ _ B_supported); incl_list).
  unfold Christoffel.
  pose proof (HB i j). pose proof (HB i k). pose proof (HB j k).
  auto 8 with supp.
Qed.

Lemma C_k_supported (i j : nat) (ks : list nat) (M : Matrix) :
  Forall (fun k => In (sym_at dtheta k) (theta ++ dtheta ++ p)) ks ->
  all_supported M (theta ++ dtheta ++ p) ->
  all_supported (fold_left (C_k i j) ks M) (theta ++ dtheta ++ p).
Proof.
  intros Hks. revert M. induction Hks as [|k ks Hk _ IH]; intros M HM; [exact HM|].
  cbn [fold_left]. apply IH. unfold C_k. apply all_supported_mset; [exact HM|].
  apply supported_Add; [apply HM|].
  apply supported_Mul; [apply Christoffel_supported|apply supported_Sym, Hk].
Qed.

Lemma dtheta_in_range :
  Forall (fun k => In (sym_at dtheta k) (theta ++ dtheta ++ p))
    (seq 0 (poly_order + 1)).
Proof. repeat constructor; in_list. Qed.

Lemma C_supported : all_supported C (theta ++ dtheta ++ p).
Proof.
  assert (Hj : forall i js M, all_supported M (theta ++ dtheta ++ p) ->
             all_supported (fold_left (C_j i) js M) (theta ++ dtheta ++ p)).
  { intros i js. induction js as [|j js IH]; intros M HM; [exact HM|].
    cbn [fold_left]. apply IH. unfold C_j.
    apply C_k_supported; [apply dtheta_in_range|exact HM]. }
  assert (Hi : forall rs M, all_supported M (theta ++ dtheta ++ p) ->
             all_supported (fold_left C_i rs M) (theta ++ dtheta ++ p)).
  { intros rs. induction rs as [|i rs IH]; intros M HM; [exact HM|].
    cbn [fold_left]. apply IH. unfold C_i. apply Hj, HM. }
  unfold C. apply Hi. intros i j. apply supported_Num.
Qed.

Lemma symcol_supported (X xs : list symbol) :
  incl X xs -> all_supported (symcol X) xs.
Proof.
  intros H. unfold symcol. apply all_supported_column.
  apply Forall_map. apply List.Forall_forall. intros x Hx.
  apply supported_Sym, H, Hx.
Qed.

Lemma E_supported : all_supported E (theta ++ dtheta ++ ddtheta ++ p).
Proof.
  assert (HB : all_supported B (theta ++ dtheta ++ ddtheta ++ p))
    by (apply (all_supported_weaken _ _ _ B_supported); incl_list).
  assert (HC : all_supported C (theta ++ dtheta ++ ddtheta ++ p))
    by (apply (all_supported_weaken _ _ _ C_supported); incl_list).
  assert (HG : all_supported G (theta ++ dtheta ++ ddtheta ++ p))
    by (apply (all_supported_weaken _ _ _ G_supported); incl_list).
  assert (H1 : all_supported (symcol ddtheta) (theta ++ dtheta ++ ddtheta ++ p))
    by (apply symcol_supported; incl_list).
  assert (H2 : all_supported (symcol dtheta) (theta ++ dtheta ++ ddtheta ++ p))
    by (apply symcol_supported; incl_list).
  unfold E. auto 8 with supp.
Qed.

Lemma identification_supported :
  all_supported Y (theta ++ dtheta ++ ddtheta ++ p)
  /\ all_supported dE_dmL (theta ++ dtheta ++ ddtheta ++ p)
  /\ all_supported E_mL_0 (theta ++ dtheta ++ ddtheta ++ p)
  /\ all_supported dE_dmE (theta ++ dtheta ++ ddtheta ++ p)
  /\ all_supported E_mE_0 (theta ++ dtheta ++ ddtheta ++ p).
Proof.
  pose proof E_supported as HE.
  assert (HmL : all_supported E (m_L :: theta ++ dtheta ++ ddtheta ++ p))
    by (apply (all_supported_weaken _ _ _ HE); incl_list).
  assert (HmE : all_supported E (m_E :: theta ++ dtheta ++ ddtheta ++ p))
    by (apply (all_supported_weaken _ _ _ HE); incl_list).
  unfold Y, dE_dmL, E_mL_0, dE_dmE, E_mE_0.
  repeat split; auto 8 with supp.
Qed.

End artifact_symbols.

(** ** Calling a lambdified function *)

Section calls.

Lemma lambdify_Ok (qs : list param) (M : Matrix) (args : list arg)
    (b : list (symbol * R)) :
  bind_params qs args = Ok b -> msupported M (map fst b) ->
  lambdify qs M args = Ok (meval M (env_of b)).
Proof.
  intros Hb HM. unfold lambdify. rewrite Hb.
  destruct (excluded_middle_informative (msupported M (map fst b)));
    [reflexivity|contradiction].
Qed.

Lemma lambdify_NameError (qs : list param) (M : Matrix) (args : list arg)
    (b : list (symbol * R)) :
  bind_params qs args = Ok b -> ~ msupported M (map fst b) ->
  lambdify qs M args = Raise NameError.
Proof.
  intros Hb HM. unfold lambdify. rewrite Hb.
  destruct (excluded_middle_informative (msupported M (map fst b)));
    [contradiction|reflexivity].
Qed.

End calls.

(** ** Forward kinematics *)

Section forward_kinematics.

Import static_base_model_gen reference.

Lemma fk_x_eval (rho : env) :
  fk.[0, 0] rho
  = - rho L * RInt (fun t => Rtrigo_def.sin (bend rho t)) 0 (rho s)
    + rho D * rho d * Rtrigo_def.cos (bend rho (rho s)).
Proof.
  transitivity
    (- rho L * RInt (fun t => Rtrigo_def.sin (bend rho t)) 0 (rho s)
     + (0 + rho D * Rtrigo_def.cos (bend rho (rho s)) * rho d
        + rho D * Rtrigo_def.sin (bend rho (rho s)) * 0)).
  - reflexivity.
  - ring.
Qed.

Lemma fk_z_eval (rho : env) :
  fk.[1, 0] rho
  = - rho L * RInt (fun t => Rtrigo_def.cos (bend rho t)) 0 (rho s)
    - rho D * rho d * Rtrigo_def.sin (bend rho (rho s)).
Proof.
  transitivity
    (- rho L * RInt (fun t => Rtrigo_def.cos (bend rho t)) 0 (rho s)
     + (0 + rho D * - Rtrigo_def.sin (bend rho (rho s)) * rho d
        + rho D * Rtrigo_def.cos (bend rho (rho s)) * 0)).
  - reflexivity.
  - ring.
Qed.

(** A call of the script's [f_FK] with three coefficients and four
    parameters returns the two entries of [fk] under the valuation of its
    arguments. *)
Lemma f_FK_call (t0 t1 t2 mL mE l dd sv dv : R) :
  f_FK [AVec [t0; t1; t2]; AVec [mL; mE; l; dd]; ANum sv; ANum dv]
  = Ok [[fk.[0, 0] (valuation t0 t1 t2 mL mE l dd sv dv)];
        [fk.[1, 0] (valuation t0 t1 t2 mL mE l dd sv dv)]].
Proof.
  unfold f_FK.
  rewrite (lambdify_Ok _ _ _
             [(theta_0, t0); (theta_1, t1); (theta_2, t2);
              (m_L, mL); (m_E, mE); (L, l); (D, dd); (s, sv); (d, dv)]).
  - reflexivity.
  - reflexivity.
  - apply all_supported_msupported. exact fk_supported_sig.
Qed.




(** What the expression [fk] denotes in the straight configuration at the
    tip of the spine: the integrals of [sin 0] and [cos 0] over [[0, 1]]. *)
Lemma fk_straight_denotation (mL mE l dd : R) :
  fk.[0, 0] (valuation 0 0 0 mL mE l dd 1 0) = 0
  /\ fk.[1, 0] (valuation 0 0 0 mL mE l dd 1 0) = - l.
Proof.
  rewrite fk_x_eval, fk_z_eval.
  set (rho := valuation 0 0 0 mL mE l dd 1 0).
  change (rho s) with 1. change (rho D) with dd. change (rho d) with 0.
  change (rho L) with l.
  assert (Hb : forall t, bend rho t = 0).
  { intros t. unfold bend. change (rho theta_0) with 0.
    change (rho theta_1) with 0. change (rho theta_2) with 0. ring. }
  replace (fun t => Rtrigo_def.sin (bend rho t)) with (fun _ : R => 0)
    by (apply functional_extensionality; intros t; rewrite Hb, sin_0; reflexivity).
  replace (fun t => Rtrigo_def.cos (bend rho t)) with (fun _ : R => 1)
    by (apply functional_extensionality; intros t; rewrite Hb, cos_0; reflexivity).
  rewrite !RInt_const. split; ring.
Qed.

End forward_kinematics.

(** ** The evaluation module against the derived expressions *)

Section signature.

Import reference.

Lemma map_fst_combine (xs : list symbol) (rs : list R) :
  List.length xs = List.length rs -> map fst (combine xs rs) = xs.
Proof.
  revert rs. induction xs as [|x xs IH]; intros [|r rs] H; try discriminate;
    [reflexivity|].
  cbn. f_equal. apply IH. injection H as H. exact H.
Qed.

Lemma bind_param_symbols (q : param) (a : arg) (b : list (symbol * R)) :
  bind_param q a = Ok b -> map fst b = param_symbols q.
Proof.
  destruct q as [xs|x], a as [rs|r]; cbn; try discriminate.
  - destruct (Nat.eqb_spec (List.length xs) (List.length rs)); [|discriminate].
    intros [= <-]. apply map_fst_combine. assumption.
  - intros [= <-]. reflexivity.
Qed.

Lemma bind_params_symbols (qs : list param) (args : list arg)
    (b : list (symbol * R)) :
  bind_params qs args = Ok b -> map fst b = bound_symbols qs.
Proof.
  revert args b. induction qs as [|q qs IH]; intros [|a args] b; cbn;
    try discriminate.
  - intros [= <-]. reflexivity.
  - destruct (bind_param q a) as [b1|] eqn:H1; [|discriminate].
    destruct (bind_params qs args) as [b2|] eqn:H2; [|discriminate].
    intros [= <-]. rewrite map_app. unfold bound_symbols. cbn. f_equal.
    + eapply bind_param_symbols, H1.
    + eapply IH, H2.
Qed.

(** A call either raises while binding its arguments or, when the matrix
    needs a symbol that the parameters do not bind, with [NameError]. *)
Lemma lambdify_unbound (qs : list param) (M : Matrix) (args : list arg) :
  ~ msupported M (bound_symbols qs) -> raises (lambdify qs M args).
Proof.
  intros HM. unfold lambdify.
  destruct (bind_params qs args) as [b|e] eqn:Hb; [|exists e; reflexivity].
  rewrite <- (bind_params_symbols _ _ _ Hb) in HM.
  destruct (excluded_middle_informative (msupported M (map fst b)));
    [contradiction|exists NameError; reflexivity].
Qed.

Lemma derivable_cos_shift (c x : R) :
  derivable_pt_lim (fun t => Rtrigo_def.cos (t + c)) x (- Rtrigo_def.sin (x + c)).
Proof.
  replace (- Rtrigo_def.sin (x + c)) with (- Rtrigo_def.sin (x + c) * (1 + 0)) by ring.
  apply (derivable_pt_lim_comp (fun t => t + c) Rtrigo_def.cos).
  - apply (derivable_pt_lim_plus id (fct_cte c)).
    + apply derivable_pt_lim_id.
    + apply derivable_pt_lim_const.
  - apply derivable_pt_lim_cos.
Qed.

End signature.

Section needs_theta_2.

Import static_base_model_gen reference.

(** The valuations used to tell the dependence on [theta_2]: no spine
    ([L = 0]), unit diameter, offset and arclength. *)
Lemma probe_agree (c : R) (x : symbol) :
  In x (bound_symbols
          [PVec static_base.theta; PVec static_base.p;
           PSym static_base.s; PSym static_base.d]) ->
  valuation 0 0 0 0 0 0 1 1 1 x = valuation 0 0 c 0 0 0 1 1 1 x.
Proof.
  cbn. intros H. repeat (destruct H as [<-|H]; [reflexivity|]). destruct H.
Qed.

Lemma fk_x_probe (c : R) :
  fk.[0, 0] (valuation 0 0 c 0 0 0 1 1 1) = Rtrigo_def.cos (0.5 * c).
Proof.
  rewrite fk_x_eval. set (rho := valuation 0 0 c 0 0 0 1 1 1).
  change (rho L) with 0. change (rho D) with 1. change (rho d) with 1.
  change (rho s) with 1.
  replace (bend rho 1) with (0.5 * c).
  - ring.
  - unfold bend. change (rho theta_0) with 0. change (rho theta_1) with 0.
    change (rho theta_2) with c. ring.
Qed.

Lemma fk_needs_theta_2 :
  ~ msupported fk
      (bound_symbols
         [PVec static_base.theta; PVec static_base.p;
          PSym static_base.s; PSym static_base.d]).
Proof.
  intros H.
  assert (H0 : (0 < rows fk)%nat) by (cbn; lia).
  assert (H1 : (0 < cols fk)%nat) by (cbn; lia).
  specialize (H 0%nat 0%nat H0 H1 _ _ (probe_agree PI)).
  rewrite !fk_x_probe in H.
  replace (0.5 * 0) with 0 in H by lra.
  replace (0.5 * PI) with (PI / 2) in H by lra.
  rewrite cos_0, cos_PI2 in H. lra.
Qed.

Lemma J_static_probe (c : R) :
  J_static.[0, 0] (valuation 0 0 c 0 0 0 1 1 1) = - Rtrigo_def.sin (0.5 * c).
Proof.
  change (J_static.[0, 0] (valuation 0 0 c 0 0 0 1 1 1))
    with (Derive (fun t => fk.[0, 0] (upd (valuation 0 0 c 0 0 0 1 1 1) theta_0 t)) 0).
  replace (fun t => fk.[0, 0] (upd (valuation 0 0 c 0 0 0 1 1 1) theta_0 t))
    with (fun t => Rtrigo_def.cos (t + 0.5 * c)).
  - rewrite (Derive_unique _ _ _ (derivable_cos_shift (0.5 * c) 0)).
    f_equal. f_equal. ring.
  - apply functional_extensionality. intros t. rewrite fk_x_eval.
    set (rho := upd (valuation 0 0 c 0 0 0 1 1 1) theta_0 t).
    change (rho L) with 0. change (rho D) with 1. change (rho d) with 1.
    change (rho s) with 1.
    replace (bend rho 1) with (t + 0.5 * c).
    + ring.
    + unfold bend. change (rho theta_0) with t. change (rho theta_1) with 0.
      change (rho theta_2) with c. ring.
Qed.

Lemma J_static_needs_theta_2 :
  ~ msupported J_static
      (bound_symbols
         [PVec static_base.theta; PVec static_base.p;
          PSym static_base.s; PSym static_base.d]).
Proof.
  intros H.
  assert (H0 : (0 < rows J_static)%nat) by (cbn; lia).
  assert (H1 : (0 < cols J_static)%nat) by (cbn; lia).
  specialize (H 0%nat 0%nat H0 H1 _ _ (probe_agree PI)).
  rewrite !J_static_probe in H.
  replace (0.5 * 0) with 0 in H by lra.
  replace (0.5 * PI) with (PI / 2) in H by lra.
  rewrite sin_0, sin_PI2 in H. lra.
Qed.

End needs_theta_2.

(** ** Importing the evaluation module *)

Section import_module.

Import static_base_model_gen reference static_base.

Lemma np_array_raises (r : result (list (list R))) :
  raises r -> raises (np_array r).
Proof. intros [e ->]. exists e. reflexivity. Qed.

(** What a successful import has done. *)
Lemma import_Ok (fs : files) (st : state) :
  import fs = (st, Ok tt) ->
  exists fk J_static fk_mid_static fk_end_static J_mid_static J_end_static,
    fs !! "sympy_fcns/sb/fk" = Some fk
    /\ fs !! "sympy_fcns/sb/J_static" = Some J_static
    /\ fs !! "sympy_fcns/sb/fk_mid_static" = Some fk_mid_static
    /\ fs !! "sympy_fcns/sb/fk_end_static" = Some fk_end_static
    /\ fs !! "sympy_fcns/sb/J_mid_static" = Some J_mid_static
    /\ fs !! "sympy_fcns/sb/J_end_static" = Some J_end_static
    /\ st =
       mkState
         ["sympy_fcns/sb/fk"; "sympy_fcns/sb/J_static";
          "sympy_fcns/sb/fk_mid_static"; "sympy_fcns/sb/fk_end_static";
          "sympy_fcns/sb/J_mid_static"; "sympy_fcns/sb/J_end_static"]
         (<["eval_J_endpt" := eval_J_endpt (f_J_end J_end_static)]>
         (<["f_J_end" := f_J_end J_end_static]>
         (<["eval_J_midpt" := eval_J_midpt (f_J_mid J_mid_static)]>
         (<["f_J_mid" := f_J_mid J_mid_static]>
         (<["eval_endpt" := eval_endpt (f_FK_end fk_end_static)]>
         (<["f_FK_end" := f_FK_end fk_end_static]>
         (<["eval_midpt" := eval_midpt (f_FK_mid fk_mid_static)]>
         (<["f_FK_mid" := f_FK_mid fk_mid_static]>
         (<["eval_J" := eval_J (f_J J_static)]>
         (<["f_J" := f_J J_static]>
         (<["eval_fk" := eval_fk (f_FK fk)]>
         (<["f_FK" := f_FK fk]> ∅)))))))))))).
Proof.
  unfold import, module_body, mbind, Py_bind, pickle_load, define, print_call,
    initial.
  cbn [loaded globals].
  destruct (fs !! "sympy_fcns/sb/fk") as [fk0|]; [|discriminate].
  destruct (fs !! "sympy_fcns/sb/J_static") as [J0|]; [|discriminate].
  destruct (f_J J0 example_args); [|discriminate].
  destruct (eval_J (f_J J0) example_args); [|discriminate].
  destruct (fs !! "sympy_fcns/sb/fk_mid_static") as [fkm|]; [|discriminate].
  destruct (fs !! "sympy_fcns/sb/fk_end_static") as [fke|]; [|discriminate].
  destruct (fs !! "sympy_fcns/sb/J_mid_static") as [Jm|]; [|discriminate].
  destruct (fs !! "sympy_fcns/sb/J_end_static") as [Je|]; [|discriminate].
  intros [= <-]. exists fk0, J0, fkm, fke, Jm, Je. repeat split.
Qed.

(** Without the midpoint slot the import raises, wherever it stops. *)
Lemma import_needs_fk_mid (fs : files) :
  fs !! "sympy_fcns/sb/fk_mid_static" = None -> raises (snd (import fs)).
Proof.
  intros Hmid.
  destruct (import fs) as [st [[]|e]] eqn:Himp; [|exists e; reflexivity].
  apply import_Ok in Himp.
  destruct Himp as (? & ? & fkm & ? & ? & ? & _ & _ & H & _). congruence.
Qed.

Lemma constant_supported (r c : nat) (xs : list symbol) :
  msupported (zeros r c) xs.
Proof. intros i j _ _ rho rho' _. reflexivity. Qed.

Lemma import_constant_cache :
  import constant_cache
  = (mkState
       ["sympy_fcns/sb/fk"; "sympy_fcns/sb/J_static";
        "sympy_fcns/sb/fk_mid_static"; "sympy_fcns/sb/fk_end_static";
        "sympy_fcns/sb/J_mid_static"; "sympy_fcns/sb/J_end_static"]
       (<["eval_J_endpt" := eval_J_endpt (f_J_end (zeros 2 2))]>
       (<["f_J_end" := f_J_end (zeros 2 2)]>
       (<["eval_J_midpt" := eval_J_midpt (f_J_mid (zeros 2 2))]>
       (<["f_J_mid" := f_J_mid (zeros 2 2)]>
       (<["eval_endpt" := eval_endpt (f_FK_end (zeros 2 1))]>
       (<["f_FK_end" := f_FK_end (zeros 2 1)]>
       (<["eval_midpt" := eval_midpt (f_FK_mid (zeros 2 1))]>
       (<["f_FK_mid" := f_FK_mid (zeros 2 1)]>
       (<["eval_J" := eval_J (f_J (zeros 2 2))]>
       (<["f_J" := f_J (zeros 2 2)]>
       (<["eval_fk" := eval_fk (f_FK (zeros 2 1))]>
       (<["f_FK" := f_FK (zeros 2 1)]> ∅)))))))))))),
     Ok tt).
Proof.
  assert (HJ : f_J (zeros 2 2) example_args
               = Ok (meval (zeros 2 2)
                       (env_of [(theta_0, 0.1); (theta_1, 0.1);
                                (m_L, 0.5); (m_E, 0.5); (L, 1); (D, 0.1);
                                (s, 0.5); (d, 0.1)]))).
  { apply lambdify_Ok; [reflexivity|apply constant_supported]. }
  unfold import, module_body, mbind, Py_bind, pickle_load, define, print_call,
    initial.
  cbn [loaded globals].
  change (constant_cache !! "sympy_fcns/sb/fk") with (Some (zeros 2 1)).
  change (constant_cache !! "sympy_fcns/sb/J_static") with (Some (zeros 2 2)).
  change (constant_cache !! "sympy_fcns/sb/fk_mid_static") with (Some (zeros 2 1)).
  change (constant_cache !! "sympy_fcns/sb/fk_end_static") with (Some (zeros 2 1)).
  change (constant_cache !! "sympy_fcns/sb/J_mid_static") with (Some (zeros 2 2)).
  change (constant_cache !! "sympy_fcns/sb/J_end_static") with (Some (zeros 2 2)).
  cbv iota beta. unfold eval_J at 1. cbn [example_args].
  fold example_args. rewrite HJ. reflexivity.
Qed.

(** However the import ends, the paths unpickled so far are an initial
    segment of the module's six paths and every name bound so far is one of
    the module's twelve. *)
Ltac bound_names H :=
  cbn [fst globals] in H;
  repeat (apply lookup_insert_Some in H;
          destruct H as [[<- _]|[_ H]]; [in_list|]);
  rewrite lookup_empty in H; discriminate H.

Lemma import_invariants (fs : files) :
  (exists n, loaded (fst (import fs)) = firstn n module_paths)
  /\ (forall name f,
        globals (fst (import fs)) !! name = Some f -> In name module_names).
Proof.
  unfold import, module_body, mbind, Py_bind, pickle_load, define, print_call,
    initial.
  cbn [loaded globals].
  destruct (fs !! "sympy_fcns/sb/fk") as [fk0|];
    [|split; [exists 0%nat; reflexivity|intros name f H; bound_names H]].
  destruct (fs !! "sympy_fcns/sb/J_static") as [J0|];
    [|split; [exists 1%nat; reflexivity|intros name f H; bound_names H]].
  destruct (f_J J0 example_args);
    [|split; [exists 2%nat; reflexivity|intros name f H; bound_names H]].
  destruct (eval_J (f_J J0) example_args);
    [|split; [exists 2%nat; reflexivity|intros name f H; bound_names H]].
  destruct (fs !! "sympy_fcns/sb/fk_mid_static") as [fkm|];
    [|split; [exists 2%nat; reflexivity|intros name f H; bound_names H]].
  destruct (fs !! "sympy_fcns/sb/fk_end_static") as [fke|];
    [|split; [exists 3%nat; reflexivity|intros name f H; bound_names H]].
  destruct (fs !! "sympy_fcns/sb/J_mid_static") as [Jm|];
    [|split; [exists 4%nat; reflexivity|intros name f H; bound_names H]].
  destruct (fs !! "sympy_fcns/sb/J_end_static") as [Je|];
    [|split; [exists 5%nat; reflexivity|intros name f H; bound_names H]].
  split; [exists 6%nat; reflexivity|intros name f H; bound_names H].
Qed.


Lemma first_order_supported :
  msupported J_first_order (theta ++ p ++ [s; d]).
Proof.
  apply all_supported_msupported. unfold J_first_order, fk_first_order.
  apply all_supported_jacobian, all_supported_msubs; [|apply supported_Num].
  apply (all_supported_weaken _ _ _ fk_supported).
  intros ? ?; cbn in *; intuition.
Qed.

Lemma import_first_order_cache :
  import first_order_cache
  = (mkState
       ["sympy_fcns/sb/fk"; "sympy_fcns/sb/J_static";
        "sympy_fcns/sb/fk_mid_static"; "sympy_fcns/sb/fk_end_static";
        "sympy_fcns/sb/J_mid_static"; "sympy_fcns/sb/J_end_static"]
       (<["eval_J_endpt" := eval_J_endpt (f_J_end J_end_first_order)]>
       (<["f_J_end" := f_J_end J_end_first_order]>
       (<["eval_J_midpt" := eval_J_midpt (f_J_mid J_mid_first_order)]>
       (<["f_J_mid" := f_J_mid J_mid_first_order]>
       (<["eval_endpt" := eval_endpt (f_FK_end fk_end_first_order)]>
       (<["f_FK_end" := f_FK_end fk_end_first_order]>
       (<["eval_midpt" := eval_midpt (f_FK_mid fk_mid_first_order)]>
       (<["f_FK_mid" := f_FK_mid fk_mid_first_order]>
       (<["eval_J" := eval_J (f_J J_first_order)]>
       (<["f_J" := f_J J_first_order]>
       (<["eval_fk" := eval_fk (f_FK fk_first_order)]>
       (<["f_FK" := f_FK fk_first_order]> ∅)))))))))))),
     Ok tt).
Proof.
  assert (HJ : f_J J_first_order example_args
               = Ok (meval J_first_order
                       (env_of [(theta_0, 0.1); (theta_1, 0.1);
                                (m_L, 0.5); (m_E, 0.5); (L, 1); (D, 0.1);
                                (s, 0.5); (d, 0.1)]))).
  { apply lambdify_Ok; [reflexivity|exact first_order_supported]. }
  unfold import, module_body, mbind, Py_bind, pickle_load, define, print_call,
    initial.
  cbn [loaded globals].
  change (first_order_cache !! "sympy_fcns/sb/fk") with (Some fk_first_order).
  change (first_order_cache !! "sympy_fcns/sb/J_static")
    with (Some J_first_order).
  change (first_order_cache !! "sympy_fcns/sb/fk_mid_static")
    with (Some fk_mid_first_order).
  change (first_order_cache !! "sympy_fcns/sb/fk_end_static")
    with (Some fk_end_first_order).
  change (first_order_cache !! "sympy_fcns/sb/J_mid_static")
    with (Some J_mid_first_order).
  change (first_order_cache !! "sympy_fcns/sb/J_end_static")
    with (Some J_end_first_order).
  cbv iota beta. unfold eval_J at 1. cbn [example_args].
  fold example_args. rewrite HJ. reflexivity.
Qed.

(** On the cache that the script leaves, the import stops at the example
    call of [f_J]: the cached [J_static] needs [theta_2]. *)
Lemma import_derived_cache :
  loaded (fst (import (run ∅)))
  = ["sympy_fcns/sb/fk"; "sympy_fcns/sb/J_static"]
  /\ snd (import (run ∅)) = Raise NameError.
Proof.
  assert (HJ : f_J static_base_model_gen.J_static example_args = Raise NameError).
  { apply (lambdify_NameError _ _ _
             [(theta_0, 0.1); (theta_1, 0.1); (m_L, 0.5); (m_E, 0.5);
              (L, 1); (D, 0.1); (s, 0.5); (d, 0.1)]).
    - reflexivity.
    - exact J_static_needs_theta_2. }
  unfold import, module_body, mbind, Py_bind, pickle_load, define, print_call,
    initial.
  cbn [loaded globals].
  change (run ∅ !! "sympy_fcns/sb/fk") with (Some static_base_model_gen.fk).
  change (run ∅ !! "sympy_fcns/sb/J_static")
    with (Some static_base_model_gen.J_static).
  cbv iota beta. rewrite HJ. split; reflexivity.
Qed.

(** C7, as amended.  On every cache, and however the import ends, the
    slots unpickled are an initial segment of [fk], [J_static],
    [fk_mid_static], [fk_end_static], [J_mid_static], [J_end_static] (each
    at most once, in this order, and no slot of [G], [Gv], [B], [C] or the
    identification group), and every name bound is one of the module's
    twelve (none for [G], [Gv], [B], [C] or the identification group).  When
    the import succeeds, it has unpickled the six slots, each once, has
    compiled each with [lambdify] and has bound one evaluation function to
    each. *)
Theorem C7_import_loads_six_slots (fs : files) :
  (exists n, loaded (fst (import fs)) = firstn n module_paths)
  /\ (forall name f,
        globals (fst (import fs)) !! name = Some f -> In name module_names)
  /\ (forall st,
        import fs = (st, Ok tt) ->
        exists fk J_static fk_mid_static fk_end_static J_mid_static J_end_static,
          fs !! "sympy_fcns/sb/fk" = Some fk
          /\ fs !! "sympy_fcns/sb/J_static" = Some J_static
          /\ fs !! "sympy_fcns/sb/fk_mid_static" = Some fk_mid_static
          /\ fs !! "sympy_fcns/sb/fk_end_static" = Some fk_end_static
          /\ fs !! "sympy_fcns/sb/J_mid_static" = Some J_mid_static
          /\ fs !! "sympy_fcns/sb/J_end_static" = Some J_end_static
          /\ st =
             mkState
               ["sympy_fcns/sb/fk"; "sympy_fcns/sb/J_static";
                "sympy_fcns/sb/fk_mid_static"; "sympy_fcns/sb/fk_end_static";
                "sympy_fcns/sb/J_mid_static"; "sympy_fcns/sb/J_end_static"]
               (<["eval_J_endpt" := eval_J_endpt (f_J_end J_end_static)]>
               (<["f_J_end" := f_J_end J_end_static]>
               (<["eval_J_midpt" := eval_J_midpt (f_J_mid J_mid_static)]>
               (<["f_J_mid" := f_J_mid J_mid_static]>
               (<["eval_endpt" := eval_endpt (f_FK_end fk_end_static)]>
               (<["f_FK_end" := f_FK_end fk_end_static]>
               (<["eval_midpt" := eval_midpt (f_FK_mid fk_mid_static)]>
               (<["f_FK_mid" := f_FK_mid fk_mid_static]>
               (<["eval_J" := eval_J (f_J J_static)]>
               (<["f_J" := f_J J_static]>
               (<["eval_fk" := eval_fk (f_FK fk)]>
               (<["f_FK" := f_FK fk]> ∅))))))))))))).
Proof.
  destruct (import_invariants fs) as [Hp Hn].
  split; [exact Hp|]. split; [exact Hn|]. exact (import_Ok fs).
Qed.

Lemma C7_import_loads_six_slots_witness :
  loaded (fst (import first_order_cache))
  = ["sympy_fcns/sb/fk"; "sympy_fcns/sb/J_static";
     "sympy_fcns/sb/fk_mid_static"; "sympy_fcns/sb/fk_end_static";
     "sympy_fcns/sb/J_mid_static"; "sympy_fcns/sb/J_end_static"].
Proof.
  destruct (proj2 (proj2 (C7_import_loads_six_slots first_order_cache))
              (fst (import first_order_cache)))
    as (fk & J & fkm & fke & Jm & Je & _ & _ & _ & _ & _ & _ & Hst).
  - rewrite import_first_order_cache. reflexivity.
  - rewrite Hst. reflexivity.
Defined.

(** C7 as stated fails: on a cache that holds every slot of the layout,
    with first-order expressions in the slots that the module reads, the
    import succeeds, yet the slot [G] is never unpickled and no evaluation
    function for [G] is bound.  Nor is [G] unpickled on the cache that the
    script leaves, which holds it. *)
Lemma C7_import_loads_six_slots_counterexample :
  snd (import first_order_cache) = Ok tt
  /\ In "sympy_fcns/sb/G" (map fst dumps)
  /\ first_order_cache !! "sympy_fcns/sb/G" = Some G
  /\ count_occ string_dec (loaded (fst (import first_order_cache)))
       "sympy_fcns/sb/G" = 0%nat
  /\ globals (fst (import first_order_cache)) !! "eval_G" = None
  /\ globals (fst (import first_order_cache)) !! "f_G" = None
  /\ run ∅ !! "sympy_fcns/sb/G" = Some G
  /\ count_occ string_dec (loaded (fst (import (run ∅))))
       "sympy_fcns/sb/G" = 0%nat.
Proof.
  rewrite import_first_order_cache. cbn [fst snd loaded globals].
  split; [reflexivity|]. split; [cbn; tauto|].
  split; [reflexivity|]. split; [reflexivity|].
  split; [reflexivity|]. split; [reflexivity|].
  split; [reflexivity|].
  rewrite (proj1 import_derived_cache). reflexivity.
Qed.

(** C8.  A call of [eval_fk] or [eval_J] on the expressions that the
    derivation script caches, with a [theta_values] whose length is not
    [poly_order + 1], raises; it returns no array. *)
Theorem C8_wrong_theta_length_raises (theta_values : list R)
    (p_vals s_val d_val : arg) :
  List.length theta_values <> (poly_order + 1)%nat ->
  raises (eval_fk (f_FK static_base_model_gen.fk)
            [AVec theta_values; p_vals; s_val; d_val])
  /\ raises (eval_J (f_J static_base_model_gen.J_static)
               [AVec theta_values; p_vals; s_val; d_val]).
Proof.
  intros _. split; apply np_array_raises, lambdify_unbound.
  - exact fk_needs_theta_2.
  - exact J_static_needs_theta_2.
Qed.

Lemma C8_wrong_theta_length_raises_witness :
  raises (eval_fk (f_FK static_base_model_gen.fk)
            [AVec [0.1; 0.1]; AVec [0.5; 0.5; 1; 0.1]; ANum 0.5; ANum 0.1])
  /\ raises (eval_J (f_J static_base_model_gen.J_static)
               [AVec [0.1; 0.1]; AVec [0.5; 0.5; 1; 0.1]; ANum 0.5; ANum 0.1]).
Proof.
  apply (C8_wrong_theta_length_raises [0.1; 0.1]). cbn. lia.
Defined.

(** What the calls raise: [ValueError] from the unpacking unless exactly two
    values are given, and [NameError] for [theta_2] when two are. *)
Lemma eval_fk_unpack_error (theta_values : list R) (p_vals s_val d_val : arg) :
  List.length theta_values <> 2%nat ->
  eval_fk (f_FK static_base_model_gen.fk)
    [AVec theta_values; p_vals; s_val; d_val] = Raise ValueError.
Proof.
  intros H. unfold eval_fk, f_FK, lambdify. cbn [bind_params bind_param].
  destruct (Nat.eqb_spec (List.length theta) (List.length theta_values)) as [E|E];
    [cbn in E; congruence|reflexivity].
Qed.

Lemma eval_fk_name_error (a b mL mE l dd sv dv : R) :
  eval_fk (f_FK static_base_model_gen.fk)
    [AVec [a; b]; AVec [mL; mE; l; dd]; ANum sv; ANum dv] = Raise NameError.
Proof.
  unfold eval_fk, f_FK.
  rewrite (lambdify_NameError _ _ _
             [(theta_0, a); (theta_1, b); (m_L, mL); (m_E, mE); (L, l);
              (D, dd); (s, sv); (d, dv)]).
  - reflexivity.
  - reflexivity.
  - exact fk_needs_theta_2.
Qed.

(** C9, the defect.  The script lambdifies [fk] over its own three-symbol
    [theta] and a call with three coefficients returns an array; the
    evaluation module lambdifies the same cached [fk] over a two-symbol
    [theta], so the same call raises [ValueError] when it unpacks, and a
    call with two coefficients raises [NameError] for [theta_2]. *)
Theorem C9_signature_mismatch :
  bound_symbols [PVec theta; PVec p; PSym s; PSym d]
  <> bound_symbols
       [PVec static_base_model_gen.theta; PVec static_base_model_gen.p;
        PSym static_base_model_gen.s; PSym static_base_model_gen.d]
  /\ msupported static_base_model_gen.fk
       (bound_symbols
          [PVec static_base_model_gen.theta; PVec static_base_model_gen.p;
           PSym static_base_model_gen.s; PSym static_base_model_gen.d])
  /\ ~ msupported static_base_model_gen.fk
         (bound_symbols [PVec theta; PVec p; PSym s; PSym d])
  /\ (exists m,
        static_base_model_gen.f_FK
          [AVec [0.1; 0.1; 0.1]; AVec [0.5; 0.5; 1; 0.1]; ANum 0.5; ANum 0.1]
        = Ok m)
  /\ eval_fk (f_FK static_base_model_gen.fk)
       [AVec [0.1; 0.1; 0.1]; AVec [0.5; 0.5; 1; 0.1]; ANum 0.5; ANum 0.1]
     = Raise ValueError
  /\ eval_fk (f_FK static_base_model_gen.fk)
       [AVec [0.1; 0.1]; AVec [0.5; 0.5; 1; 0.1]; ANum 0.5; ANum 0.1]
     = Raise NameError.
Proof.
  split; [discriminate|].
  split; [apply all_supported_msupported; exact fk_supported_sig|].
  split; [exact fk_needs_theta_2|].
  split; [eexists; apply f_FK_call|].
  split; [apply eval_fk_unpack_error; cbn; lia|apply eval_fk_name_error].
Qed.

(** C6, the defect.  The script documents that for [theta = 0] the tip
    of the spine is at [(0, -L)] (the comments beside the two entries of
    [fk]), but the evaluation entry point cannot return it: over the cached
    [fk], [eval_fk] called with the all-zero configuration at [s = 1],
    [d = 0] raises [ValueError], at the unpacking, when [theta] has the three
    coefficients of the derivation; with the two coefficients of the
    module's own signature it raises as well, [theta_2] being left unbound.
    This for every [p]: no call returns a position. *)
Theorem C6_eval_fk_raises_at_straight (mL mE l dd : R) :
  eval_fk (f_FK static_base_model_gen.fk)
    [AVec [0; 0; 0]; AVec [mL; mE; l; dd]; ANum 1; ANum 0]
  = Raise ValueError
  /\ raises (eval_fk (f_FK static_base_model_gen.fk)
               [AVec [0; 0]; AVec [mL; mE; l; dd]; ANum 1; ANum 0]).
Proof.
  split.
  - apply eval_fk_unpack_error. intros H. discriminate H.
  - exists NameError. apply eval_fk_name_error.
Qed.



End import_module.

(** ** Closed forms of the forward kinematics *)

Section closed_forms.

Import static_base_model_gen reference.

(** The fundamental theorem of calculus for the total integral: a function
    that is continuous and has an antiderivative integrates to the difference
    of the antiderivative. *)
Lemma RInt_antiderivative (F f : R -> R) (a b : R) :
  (forall x, derivable_pt_lim F x (f x)) -> continuity f ->
  RInt f a b = F b - F a.
Proof.
  intros HF Hc.
  pose (dF := fun x => exist (fun l => derivable_pt_abs F x l) (f x) (HF x)
                       : derivable_pt F x).
  assert (Hcont : continuity (derive F dF)) by exact Hc.
  pose (G1 := @mkC1 F dF Hcont).
  rewrite (RInt_unique f a b (@RiemannInt_P32 G1 a b)).
  exact (@FTC_Riemann G1 a b (@RiemannInt_P32 G1 a b)).
Qed.

Lemma derivable_affine (a b x : R) :
  derivable_pt_lim (fun v => a + b * v) x b.
Proof.
  pose proof (derivable_pt_lim_plus (fct_cte a) (mult_real_fct b id) x 0 (b * 1)
                (derivable_pt_lim_const a x)
                (derivable_pt_lim_scal id b x 1 (derivable_pt_lim_id x))) as H.
  replace (0 + b * 1) with b in H by ring. exact H.
Qed.

Lemma derivable_cos_affine (a b x : R) :
  derivable_pt_lim (fun v => Rtrigo_def.cos (a + b * v)) x
    (- Rtrigo_def.sin (a + b * x) * b).
Proof.
  apply (derivable_pt_lim_comp (fun v => a + b * v) Rtrigo_def.cos).
  - apply derivable_affine.
  - apply derivable_pt_lim_cos.
Qed.

Lemma derivable_sin_affine (a b x : R) :
  derivable_pt_lim (fun v => Rtrigo_def.sin (a + b * v)) x
    (Rtrigo_def.cos (a + b * x) * b).
Proof.
  apply (derivable_pt_lim_comp (fun v => a + b * v) Rtrigo_def.sin).
  - apply derivable_affine.
  - apply derivable_pt_lim_sin.
Qed.

Lemma continuity_of_derivable (f : R -> R) (g : R -> R) :
  (forall x, derivable_pt_lim f x (g x)) -> continuity f.
Proof.
  intros H x. apply derivable_continuous_pt. exists (g x). apply H.
Qed.

Lemma RInt_sin_affine (a b x : R) :
  b <> 0 ->
  RInt (fun v => Rtrigo_def.sin (a + b * v)) 0 x
  = (Rtrigo_def.cos a - Rtrigo_def.cos (a + b * x)) / b.
Proof.
  intros Hb.
  rewrite (RInt_antiderivative (fun v => - / b * Rtrigo_def.cos (a + b * v))).
  - rewrite Rmult_0_r, Rplus_0_r. field. exact Hb.
  - intros v.
    replace (Rtrigo_def.sin (a + b * v))
      with (- / b * (- Rtrigo_def.sin (a + b * v) * b)) by (field; exact Hb).
    apply (derivable_pt_lim_scal (fun v => Rtrigo_def.cos (a + b * v))).
    apply derivable_cos_affine.
  - apply (continuity_of_derivable _ _ (derivable_sin_affine a b)).
Qed.

Lemma RInt_cos_affine (a b x : R) :
  b <> 0 ->
  RInt (fun v => Rtrigo_def.cos (a + b * v)) 0 x
  = (Rtrigo_def.sin (a + b * x) - Rtrigo_def.sin a) / b.
Proof.
  intros Hb.
  rewrite (RInt_antiderivative (fun v => / b * Rtrigo_def.sin (a + b * v))).
  - rewrite Rmult_0_r, Rplus_0_r. field. exact Hb.
  - intros v.
    replace (Rtrigo_def.cos (a + b * v))
      with (/ b * (Rtrigo_def.cos (a + b * v) * b)) by (field; exact Hb).
    apply (derivable_pt_lim_scal (fun v => Rtrigo_def.sin (a + b * v))).
    apply derivable_sin_affine.
  - apply (continuity_of_derivable _ _ (derivable_cos_affine a b)).
Qed.

(** the integral of an affine function over an interval centred at 0 *)
Lemma RInt_affine_centred (a b h : R) :
  RInt (fun t => a + b * t) (- h) h = a * (2 * h).
Proof.
  rewrite (RInt_antiderivative (fun t => a * t + b / 2 * (t * t))).
  - ring.
  - intros t.
    replace (a + b * t) with (a * 1 + b / 2 * (1 * t + t * 1)) by field.
    apply (derivable_pt_lim_plus (mult_real_fct a id)
             (mult_real_fct (b / 2) (id * id)%F)).
    + apply derivable_pt_lim_scal, derivable_pt_lim_id.
    + apply derivable_pt_lim_scal.
      apply (derivable_pt_lim_mult id id); apply derivable_pt_lim_id.
  - apply (continuity_of_derivable _ _ (derivable_affine a b)).
Qed.

Lemma bend_linear (rho : env) (t : R) :
  rho theta_2 = 0 -> bend rho t = rho theta_0 + rho theta_1 * t.
Proof. intros H. unfold bend. rewrite H. ring. Qed.

Lemma fk_linear_eval (rho : env) :
  rho theta_2 = 0 ->
  fk.[0, 0] rho
  = - rho L * RInt (fun t => Rtrigo_def.sin (rho theta_0 + rho theta_1 * t))
                0 (rho s)
    + rho D * rho d * Rtrigo_def.cos (rho theta_0 + rho theta_1 * rho s)
  /\ fk.[1, 0] rho
     = - rho L * RInt (fun t => Rtrigo_def.cos (rho theta_0 + rho theta_1 * t))
                 0 (rho s)
       - rho D * rho d * Rtrigo_def.sin (rho theta_0 + rho theta_1 * rho s).
Proof.
  intros H2. rewrite fk_x_eval, fk_z_eval.
  replace (fun t => Rtrigo_def.sin (bend rho t))
    with (fun t => Rtrigo_def.sin (rho theta_0 + rho theta_1 * t))
    by (apply functional_extensionality; intros t;
        rewrite (bend_linear rho t H2); reflexivity).
  replace (fun t => Rtrigo_def.cos (bend rho t))
    with (fun t => Rtrigo_def.cos (rho theta_0 + rho theta_1 * t))
    by (apply functional_extensionality; intros t;
        rewrite (bend_linear rho t H2); reflexivity).
  rewrite (bend_linear rho (rho s) H2). split; reflexivity.
Qed.

(** X1.  What the expression [fk] denotes where [theta_1 = theta_2 = 0]: a
    straight rod turned by [theta_0], with the point at arclength [s] and
    offset [d] at
    [(-L*s*sin(theta_0) + D*d*cos(theta_0),
      -L*s*cos(theta_0) - D*d*sin(theta_0))].
    This is the value of the integrals that the script asks for; no result
    of a numeric call is asserted. *)
Theorem X1_fk_constant_angle (rho : env) :
  rho theta_1 = 0 -> rho theta_2 = 0 ->
  fk.[0, 0] rho
  = - rho L * rho s * Rtrigo_def.sin (rho theta_0)
    + rho D * rho d * Rtrigo_def.cos (rho theta_0)
  /\ fk.[1, 0] rho
     = - rho L * rho s * Rtrigo_def.cos (rho theta_0)
       - rho D * rho d * Rtrigo_def.sin (rho theta_0).
Proof.
  intros H1 H2. destruct (fk_linear_eval rho H2) as [-> ->]. rewrite H1.
  replace (fun t => Rtrigo_def.sin (rho theta_0 + 0 * t))
    with (fun _ : R => Rtrigo_def.sin (rho theta_0))
    by (apply functional_extensionality; intros t; f_equal; ring).
  replace (fun t => Rtrigo_def.cos (rho theta_0 + 0 * t))
    with (fun _ : R => Rtrigo_def.cos (rho theta_0))
    by (apply functional_extensionality; intros t; f_equal; ring).
  rewrite !RInt_const.
  replace (rho theta_0 + 0 * rho s) with (rho theta_0) by ring.
  split; ring.
Qed.

Lemma X1_fk_constant_angle_witness :
  fk.[0, 0] (valuation 0.3 0 0 0.5 0.5 1 0.1 0.5 0.1)
  = - 1 * 0.5 * Rtrigo_def.sin 0.3 + 0.1 * 0.1 * Rtrigo_def.cos 0.3
  /\ fk.[1, 0] (valuation 0.3 0 0 0.5 0.5 1 0.1 0.5 0.1)
     = - 1 * 0.5 * Rtrigo_def.cos 0.3 - 0.1 * 0.1 * Rtrigo_def.sin 0.3.
Proof.
  apply (X1_fk_constant_angle (valuation 0.3 0 0 0.5 0.5 1 0.1 0.5 0.1));
    reflexivity.
Defined.

(** X2.  What the expression [fk] denotes where [theta_2 = 0] and
    [theta_1 <> 0]: a circular arc, with the point at arclength [s] and
    offset [d] at
    [(-L*(cos(theta_0) - cos(theta_0 + theta_1*s))/theta_1
        + D*d*cos(theta_0 + theta_1*s),
      -L*(sin(theta_0 + theta_1*s) - sin(theta_0))/theta_1
        - D*d*sin(theta_0 + theta_1*s))].
    This is the value of the integrals that the script asks for; no result
    of a numeric call is asserted. *)
Theorem X2_fk_circular_arc (rho : env) :
  rho theta_1 <> 0 -> rho theta_2 = 0 ->
  fk.[0, 0] rho
  = - rho L
    * ((Rtrigo_def.cos (rho theta_0)
        - Rtrigo_def.cos (rho theta_0 + rho theta_1 * rho s)) / rho theta_1)
    + rho D * rho d * Rtrigo_def.cos (rho theta_0 + rho theta_1 * rho s)
  /\ fk.[1, 0] rho
     = - rho L
       * ((Rtrigo_def.sin (rho theta_0 + rho theta_1 * rho s)
           - Rtrigo_def.sin (rho theta_0)) / rho theta_1)
       - rho D * rho d * Rtrigo_def.sin (rho theta_0 + rho theta_1 * rho s).
Proof.
  intros H1 H2. destruct (fk_linear_eval rho H2) as [-> ->].
  rewrite RInt_sin_affine, RInt_cos_affine by exact H1. split; reflexivity.
Qed.

Lemma X2_fk_circular_arc_witness :
  fk.[0, 0] (valuation 0 1 0 0.5 0.5 1 0.1 1 0)
  = - 1 * ((Rtrigo_def.cos 0 - Rtrigo_def.cos (0 + 1 * 1)) / 1)
    + 0.1 * 0 * Rtrigo_def.cos (0 + 1 * 1)
  /\ fk.[1, 0] (valuation 0 1 0 0.5 0.5 1 0.1 1 0)
     = - 1 * ((Rtrigo_def.sin (0 + 1 * 1) - Rtrigo_def.sin 0) / 1)
       - 0.1 * 0 * Rtrigo_def.sin (0 + 1 * 1).
Proof.
  apply (X2_fk_circular_arc (valuation 0 1 0 0.5 0.5 1 0.1 1 0)).
  - change (valuation 0 1 0 0.5 0.5 1 0.1 1 0 theta_1) with 1. lra.
  - reflexivity.
Defined.

(** X3.  For every configuration, a point of the cross-section at offset
    [d] lies at distance [D*|d|] from the spine point of the same
    arclength: the offset [D*d] is only rotated by the local bending
    angle. *)
Theorem X3_offset_distance (t0 t1 t2 mL mE l dd sv dv : R) :
  (fk.[0, 0] (valuation t0 t1 t2 mL mE l dd sv dv)
   - fk.[0, 0] (valuation t0 t1 t2 mL mE l dd sv 0)) ^ 2
  + (fk.[1, 0] (valuation t0 t1 t2 mL mE l dd sv dv)
     - fk.[1, 0] (valuation t0 t1 t2 mL mE l dd sv 0)) ^ 2
  = (dd * dv) ^ 2.
Proof.
  rewrite !fk_x_eval, !fk_z_eval.
  set (rho := valuation t0 t1 t2 mL mE l dd sv dv).
  set (rho0 := valuation t0 t1 t2 mL mE l dd sv 0).
  change (rho s) with sv. change (rho0 s) with sv.
  change (rho D) with dd. change (rho0 D) with dd.
  change (rho d) with dv. change (rho0 d) with 0.
  change (rho L) with l. change (rho0 L) with l.
  change (bend rho0) with (bend rho).
  set (I1 := RInt _ 0 sv). set (I2 := RInt _ 0 sv).
  pose proof (sin2_cos2 (bend rho sv)) as H. unfold Rsqr in H.
  set (sn := Rtrigo_def.sin (bend rho sv)) in *.
  set (cs := Rtrigo_def.cos (bend rho sv)) in *.
  transitivity ((dd * dv) ^ 2 * (sn * sn + cs * cs)); [ring|].
  rewrite H. ring.
Qed.

End closed_forms.

(** ** More on the inertia and Coriolis matrices *)

Section dynamics.

Import static_base_model_gen reference.

Lemma theta_not_s (k : nat) : sym_at theta k <> s.
Proof. destruct k as [|[|[|[|k]]]]; discriminate. Qed.

(** X4.  The Jacobian that the inertia loop takes at a mass location [x],
    [fk.subs(s, x).jacobian(theta)], is the cached [J_static] with [x]
    substituted for [s]. *)
Theorem X4_inertia_uses_J_static (x : R) : msubs J_static s (Num x) = J x.
Proof.
  unfold msubs, mmap, J, J_static, jacobian. cbn [rows cols ent].
  f_equal.
  apply functional_extensionality. intros i.
  apply functional_extensionality. intros k.
  apply subs_diff. apply theta_not_s.
Qed.

Lemma Christoffel_eval (i j k : nat) (rho : env) :
  Christoffel i j k rho
  = 0.5 * (diff B.[i, j] (sym_at theta k) rho
           + diff B.[i, k] (sym_at theta j) rho
           - diff B.[j, k] (sym_at theta i) rho).
Proof. reflexivity. Qed.

(** X5.  The Christoffel symbols of the Coriolis loop are symmetric in their
    last two indices. *)
Theorem X5_Christoffel_symmetric (i j k : nat) (rho : env) :
  Christoffel i j k rho = Christoffel i k j rho.
Proof.
  rewrite !Christoffel_eval, (B_symmetric k j). ring.
Qed.

Lemma Christoffel_rates_free (i j k : nat) :
  supported (Christoffel i j k) (theta ++ p).
Proof.
  pose proof (B_supported i j). pose proof (B_supported i k).
  pose proof (B_supported j k).
  unfold Christoffel. auto 8 with supp.
Qed.

Lemma scale_rates_other (c : R) (rho : env) (x : symbol) :
  In x (theta ++ p) -> scale_rates c rho x = rho x.
Proof.
  intros H. unfold scale_rates.
  destruct (in_dec symbol_eq_dec x dtheta) as [Hin|]; [|reflexivity].
  cbn in H, Hin. exfalso.
  repeat (destruct H as [<-|H]; [intuition discriminate|]). exact H.
Qed.

Lemma scale_rates_rate (c : R) (rho : env) (k : nat) :
  (k <= poly_order)%nat ->
  scale_rates c rho (sym_at dtheta k) = c * rho (sym_at dtheta k).
Proof.
  intros Hk. unfold scale_rates.
  destruct (in_dec symbol_eq_dec (sym_at dtheta k) dtheta) as [|Hout];
    [reflexivity|].
  exfalso. apply Hout. unfold poly_order in Hk.
  destruct k as [|[|[|k]]]; [in_list..|lia].
Qed.

Lemma C_scale_rates (i j : nat) (c : R) (rho : env) :
  (i <= poly_order)%nat -> (j <= poly_order)%nat ->
  C.[i, j] (scale_rates c rho) = c * C.[i, j] rho.
Proof.
  intros Hi Hj. rewrite !C_entry_eval by assumption.
  unfold coriolis. rewrite scal_sum. apply sum_eq. intros k Hk.
  rewrite scale_rates_rate by exact Hk.
  pose proof (Christoffel_rates_free i j k (scale_rates c rho) rho
                (scale_rates_other c rho)) as H.
  rewrite !Christoffel_eval in H. rewrite H. ring.
Qed.

(** X6.  The Coriolis matrix is homogeneous of degree one in the rates:
    multiplying every [dtheta_k] by [c] multiplies every entry by [c]; at
    rest ([c = 0]) the matrix is zero. *)
Theorem X6_coriolis_linear_in_rates (i j : nat) (c : R) (rho : env) :
  (i <= poly_order)%nat -> (j <= poly_order)%nat ->
  C.[i, j] (scale_rates c rho) = c * C.[i, j] rho
  /\ C.[i, j] (scale_rates 0 rho) = 0.
Proof.
  intros Hi Hj. split; [apply C_scale_rates; assumption|].
  rewrite C_scale_rates by assumption. ring.
Qed.

Lemma X6_coriolis_linear_in_rates_witness :
  C.[1, 2] (scale_rates 3 (fun _ => 1)) = 3 * C.[1, 2] (fun _ => 1)
  /\ C.[1, 2] (scale_rates 0 (fun _ => 1)) = 0.
Proof.
  apply (X6_coriolis_linear_in_rates 1 2 3 (fun _ => 1)); unfold poly_order; lia.
Defined.

(** X7.  The quadratic form of [Bdot - 2C] in the rates vanishes: the sum
    over [i] and [j] of [dtheta_i * (Bdot - 2C)[i,j] * dtheta_j] is zero for
    every [theta], [dtheta] and [p]. *)
Theorem X7_passivity (rho : env) :
  sum_f_R0
    (fun i =>
       sum_f_R0
         (fun j =>
            rho (sym_at dtheta i) * (Bdot i j rho - 2 * C.[i, j] rho)
            * rho (sym_at dtheta j))
         poly_order)
    poly_order
  = 0.
Proof.
  unfold poly_order at 1 2. cbn [sum_f_R0].
  rewrite !C_entry_eval by (unfold poly_order; lia).
  unfold coriolis, Bdot, poly_order. cbn [sum_f_R0].
  replace 0.5 with (/ 2) by lra. field.
Qed.

End dynamics.

(** ** The potential energy on the spine *)

Section spine_potential.

Import static_base_model_gen reference.

(** Integrating over the cross-section leaves the height of the spine
    point: the offset term is odd in [d]. *)
Lemma projected_height_spine (x : R) (rho : env) :
  projected_height x rho = spine_height x rho.
Proof.
  unfold projected_height.
  replace (fun t =>
             Rtrigo_def.sin (rho gamma) * fk.[0, 0] (upd (upd rho d t) s x)
             + Rtrigo_def.cos (rho gamma) * fk.[1, 0] (upd (upd rho d t) s x))
    with (fun t =>
            spine_height x rho
            + rho D * (Rtrigo_def.sin (rho gamma) * Rtrigo_def.cos (bend rho x)
                       - Rtrigo_def.cos (rho gamma) * Rtrigo_def.sin (bend rho x))
              * t).
  - replace (-1 / 2) with (- (1 / 2)) by lra.
    rewrite RInt_affine_centred. lra.
  - apply functional_extensionality. intros t.
    rewrite fk_x_eval, fk_z_eval.
    set (rho' := upd (upd rho d t) s x).
    change (rho' s) with x. change (rho' D) with (rho D).
    change (rho' d) with t. change (rho' L) with (rho L).
    change (bend rho') with (bend rho).
    unfold spine_height. ring.
Qed.

Lemma U_on_spine (rho : env) :
  U rho
  = rho m_E * spine_height 1 rho
    + sum_f_R0
        (fun i =>
           rho m_L / INR num_masses
           * spine_height (INR i / INR num_masses + 1 / (2 * INR num_masses)) rho)
        (num_masses - 1).
Proof.
  rewrite U_eval. unfold potential. rewrite projected_height_spine. f_equal.
  apply sum_eq. intros i _. rewrite projected_height_spine. reflexivity.
Qed.

Lemma spine_height_agree (x : R) (rho rho' : env) :
  (forall y, In y [gamma; theta_0; theta_1; theta_2; m_L; m_E; L] ->
             rho y = rho' y) ->
  spine_height x rho = spine_height x rho'.
Proof.
  intros H. unfold spine_height.
  assert (Hb : bend rho = bend rho').
  { apply functional_extensionality. intros t. unfold bend.
    rewrite (H theta_0), (H theta_1), (H theta_2) by in_list. reflexivity. }
  rewrite Hb, (H gamma), (H L) by in_list. reflexivity.
Qed.

Lemma U_diameter_free :
  supported U [gamma; theta_0; theta_1; theta_2; m_L; m_E; L].
Proof.
  intros rho rho' H. rewrite !U_on_spine.
  rewrite (spine_height_agree 1 rho rho' H), (H m_E) by in_list. f_equal.
  apply sum_eq. intros i _.
  rewrite (spine_height_agree _ rho rho' H), (H m_L) by in_list. reflexivity.
Qed.

(** X8.  Integrating over the cross-section drops the offset: the potential
    energy is that of the end mass and the point masses placed on the
    spine, and neither [U] nor the gravity vectors [G] and [Gv] depend on
    the diameter [D]. *)
Theorem X8_potential_on_spine :
  (forall rho,
     U rho
     = rho m_E * spine_height 1 rho
       + sum_f_R0
           (fun i =>
              rho m_L / INR num_masses
              * spine_height (INR i / INR num_masses + 1 / (2 * INR num_masses))
                  rho)
           (num_masses - 1))
  /\ supported U [gamma; theta_0; theta_1; theta_2; m_L; m_E; L]
  /\ all_supported G [theta_0; theta_1; theta_2; m_L; m_E; L]
  /\ all_supported Gv [gamma; theta_0; theta_1; theta_2; m_L; m_E; L].
Proof.
  pose proof U_diameter_free as HU.
  split; [exact U_on_spine|]. split; [exact HU|]. split.
  - unfold G. auto 8 with supp.
  - unfold Gv. auto 8 with supp.
Qed.

Lemma sum_mass_locations :
  sum_f_R0
    (fun i => INR i / INR num_masses + 1 / (2 * INR num_masses))
    (num_masses - 1)
  = INR num_masses / 2.
Proof. unfold num_masses. cbn [Nat.sub sum_f_R0 INR]. field. Qed.

Lemma spine_height_straight (x : R) (rho : env) :
  rho theta_0 = 0 -> rho theta_1 = 0 -> rho theta_2 = 0 ->
  spine_height x rho = - rho L * x * Rtrigo_def.cos (rho gamma).
Proof.
  intros H0 H1 H2. unfold spine_height.
  assert (Hb : forall t, bend rho t = 0)
    by (intros t; unfold bend; rewrite H0, H1, H2; ring).
  replace (fun t => Rtrigo_def.sin (bend rho t)) with (fun _ : R => 0)
    by (apply functional_extensionality; intros t; rewrite Hb, sin_0; reflexivity).
  replace (fun t => Rtrigo_def.cos (bend rho t)) with (fun _ : R => 1)
    by (apply functional_extensionality; intros t; rewrite Hb, cos_0; reflexivity).
  rewrite !RInt_const. ring.
Qed.

(** X9.  In the straight configuration the potential energy is that of a
    rod hanging along the gravity direction with the distributed mass at
    half its length: [U = -L*cos(gamma)*(m_E + m_L/2)]. *)
Theorem X9_potential_straight (rho : env) :
  rho theta_0 = 0 -> rho theta_1 = 0 -> rho theta_2 = 0 ->
  U rho = - rho L * Rtrigo_def.cos (rho gamma) * (rho m_E + rho m_L / 2).
Proof.
  intros H0 H1 H2. rewrite U_on_spine.
  rewrite (spine_height_straight 1 rho H0 H1 H2).
  replace (sum_f_R0 _ (num_masses - 1))
    with (rho m_L / INR num_masses
          * (- rho L * Rtrigo_def.cos (rho gamma))
          * sum_f_R0
              (fun i => INR i / INR num_masses + 1 / (2 * INR num_masses))
              (num_masses - 1)).
  - rewrite sum_mass_locations. unfold num_masses. cbn [INR]. field.
  - rewrite scal_sum. apply sum_eq. intros i _.
    rewrite (spine_height_straight _ rho H0 H1 H2). ring.
Qed.

Lemma X9_potential_straight_witness :
  U (valuation 0 0 0 2 3 1 0.1 0 0)
  = - 1 * Rtrigo_def.cos 0 * (3 + 2 / 2).
Proof.
  apply (X9_potential_straight (valuation 0 0 0 2 3 1 0.1 0 0)); reflexivity.
Defined.

End spine_potential.

(** ** Writing the cache *)

Section writing.

Import static_base_model_gen reference.

Lemma dump_fold_other (l : list (string * Matrix)) (fs : files) (path : string) :
  ~ In path (map fst l) ->
  fold_left (fun fs pm => pickle_dump (snd pm) (fst pm) fs) l fs !! path
  = fs !! path.
Proof.
  revert fs. induction l as [|[k M] l IH]; intros fs H; [reflexivity|].
  cbn [fold_left fst snd]. rewrite IH by (intros Hin; apply H; right; exact Hin).
  unfold pickle_dump. apply lookup_insert_ne. intros ->. apply H. left.
  reflexivity.
Qed.

Lemma dump_fold_written (l : list (string * Matrix)) (fs : files)
    (path : string) (M : Matrix) :
  List.NoDup (map fst l) -> In (path, M) l ->
  fold_left (fun fs pm => pickle_dump (snd pm) (fst pm) fs) l fs !! path
  = Some M.
Proof.
  revert fs. induction l as [|[k M0] l IH]; intros fs Hnd Hin; [destruct Hin|].
  cbn [map fst] in Hnd. inversion Hnd as [|? ? Hk Hnd']; subst.
  cbn [fold_left fst snd]. destruct Hin as [[= -> ->]|Hin].
  - rewrite dump_fold_other by exact Hk. unfold pickle_dump.
    apply lookup_insert_eq.
  - apply IH; assumption.
Qed.

Lemma dumps_NoDup : List.NoDup (map fst dumps).
Proof.
  cbn. repeat (constructor; [cbn; intuition discriminate|]). constructor.
Qed.

Lemma run_written (fs : files) (path : string) (M : Matrix) :
  In (path, M) dumps -> run fs !! path = Some M.
Proof. apply dump_fold_written, dumps_NoDup. Qed.

Lemma run_other (fs : files) (path : string) :
  ~ In path (map fst dumps) -> run fs !! path = fs !! path.
Proof. apply dump_fold_other. Qed.

Lemma run_idempotent (fs : files) : run (run fs) = run fs.
Proof.
  apply map_eq. intros path.
  destruct (in_dec string_dec path (map fst dumps)) as [Hin|Hout].
  - apply in_map_iff in Hin. destruct Hin as [[k M] [<- Hin]]. cbn [fst].
    rewrite !(run_written _ k M Hin). reflexivity.
  - rewrite !run_other by exact Hout. reflexivity.
Qed.

(** X10.  Running the derivation script on any cache overwrites its eleven
    slots with the derived expressions, leaves every other path as it was,
    and running it again changes nothing. *)
Theorem X10_run_overwrites (fs : files) :
  (forall path M, In (path, M) dumps -> run fs !! path = Some M)
  /\ (forall path, ~ In path (map fst dumps) -> run fs !! path = fs !! path)
  /\ run (run fs) = run fs.
Proof.
  split; [intros path M; apply run_written|].
  split; [intros path; apply run_other|apply run_idempotent].
Qed.

Lemma X10_run_overwrites_witness :
  run constant_cache !! "sympy_fcns/sb/B" = Some B
  /\ run constant_cache !! "sympy_fcns/sb/fk_mid_static" = Some (zeros 2 1).
Proof.
  destruct (X10_run_overwrites constant_cache) as (Hw & Ho & _). split.
  - apply Hw. cbn. tauto.
  - rewrite Ho; [reflexivity|]. cbn. intuition discriminate.
Defined.

End writing.

(** ** More on importing the evaluation module *)

Section import_more.

Import static_base_model_gen reference static_base.

Ltac import_unfold :=
  unfold import, module_body, mbind, Py_bind, pickle_load, define, print_call,
    initial; cbn [loaded globals].

Lemma eval_J_example (J0 : Matrix) (m : list (list R)) :
  f_J J0 example_args = Ok m -> eval_J (f_J J0) example_args = Ok (map (map re) m).
Proof. intros H. unfold eval_J, example_args in *. rewrite H. reflexivity. Qed.

Lemma eval_J_example_raises (J0 : Matrix) (e : exception) :
  f_J J0 example_args = Raise e -> eval_J (f_J J0) example_args = Raise e.
Proof. intros H. unfold eval_J, example_args in *. rewrite H. reflexivity. Qed.

(** X11.  After the derivation script has run, whatever the cache held
    before, importing the evaluation module raises [NameError] at its
    example call of [f_J], having unpickled [fk] and [J_static] only. *)
Theorem X11_import_after_run (fs : files) :
  loaded (fst (import (run fs)))
  = ["sympy_fcns/sb/fk"; "sympy_fcns/sb/J_static"]
  /\ snd (import (run fs)) = Raise NameError.
Proof.
  assert (HJ : f_J static_base_model_gen.J_static example_args = Raise NameError).
  { apply (lambdify_NameError _ _ _
             [(theta_0, 0.1); (theta_1, 0.1); (m_L, 0.5); (m_E, 0.5);
              (L, 1); (D, 0.1); (s, 0.5); (d, 0.1)]).
    - reflexivity.
    - exact J_static_needs_theta_2. }
  import_unfold.
  rewrite (run_written fs "sympy_fcns/sb/fk" static_base_model_gen.fk)
    by (cbn; tauto).
  rewrite (run_written fs "sympy_fcns/sb/J_static" static_base_model_gen.J_static)
    by (cbn; tauto).
  cbv iota beta. rewrite HJ. split; reflexivity.
Qed.

(** X12.  The import succeeds exactly when the six slots that the module
    unpickles are present and the example call of [f_J] on the cached
    [J_static] returns. *)
Theorem X12_import_succeeds_iff (fs : files) :
  snd (import fs) = Ok tt
  <-> exists fk J_static fk_mid_static fk_end_static J_mid_static J_end_static m,
        fs !! "sympy_fcns/sb/fk" = Some fk
        /\ fs !! "sympy_fcns/sb/J_static" = Some J_static
        /\ fs !! "sympy_fcns/sb/fk_mid_static" = Some fk_mid_static
        /\ fs !! "sympy_fcns/sb/fk_end_static" = Some fk_end_static
        /\ fs !! "sympy_fcns/sb/J_mid_static" = Some J_mid_static
        /\ fs !! "sympy_fcns/sb/J_end_static" = Some J_end_static
        /\ f_J J_static example_args = Ok m.
Proof.
  split.
  - import_unfold.
    destruct (fs !! "sympy_fcns/sb/fk") as [fk0|]; [|discriminate].
    destruct (fs !! "sympy_fcns/sb/J_static") as [J0|]; [|discriminate].
    destruct (f_J J0 example_args) as [m|] eqn:HJ; [|discriminate].
    rewrite (eval_J_example J0 m HJ).
    destruct (fs !! "sympy_fcns/sb/fk_mid_static") as [fkm|]; [|discriminate].
    destruct (fs !! "sympy_fcns/sb/fk_end_static") as [fke|]; [|discriminate].
    destruct (fs !! "sympy_fcns/sb/J_mid_static") as [Jm|]; [|discriminate].
    destruct (fs !! "sympy_fcns/sb/J_end_static") as [Je|]; [|discriminate].
    intros _. exists fk0, J0, fkm, fke, Jm, Je, m. repeat split. exact HJ.
  - intros (fk0 & J0 & fkm & fke & Jm & Je & m & H1 & H2 & H3 & H4 & H5 & H6 & HJ).
    import_unfold. rewrite H1, H2. cbv iota beta. rewrite HJ.
    rewrite (eval_J_example J0 m HJ), H3, H4, H5, H6. reflexivity.
Qed.

(** X13.  The import depends on the six slots it unpickles and on nothing
    else in the cache: two caches that agree on them give the same
    outcome. *)
Theorem X13_import_reads_six_only (fs fs' : files) :
  (forall path, In path module_paths -> fs !! path = fs' !! path) ->
  import fs = import fs'.
Proof.
  intros H. import_unfold.
  rewrite !H by (cbn; tauto). reflexivity.
Qed.

Lemma X13_import_reads_six_only_witness :
  import (delete "sympy_fcns/sb/G" constant_cache) = import constant_cache.
Proof.
  apply (X13_import_reads_six_only (delete "sympy_fcns/sb/G" constant_cache)
           constant_cache).
  intros path H. cbn in H.
  repeat (destruct H as [<-|H]; [reflexivity|]). destruct H.
Defined.

(** X14.  Whatever the cache and however the import ends, the paths
    unpickled so far are an initial segment of the module's six paths, in
    order; and the import raises [FileNotFoundError] only when one of the
    six slots is missing. *)
Theorem X14_import_prefix (fs : files) :
  (exists n, loaded (fst (import fs)) = firstn n module_paths)
  /\ (snd (import fs) = Raise FileNotFoundError ->
      exists path, In path module_paths /\ fs !! path = None).
Proof.
  import_unfold.
  destruct (fs !! "sympy_fcns/sb/fk") as [fk0|] eqn:H1;
    [|split; [exists 0%nat; reflexivity|intros _; eexists; split; [|exact H1]; in_list]].
  destruct (fs !! "sympy_fcns/sb/J_static") as [J0|] eqn:H2;
    [|split; [exists 1%nat; reflexivity|intros _; eexists; split; [|exact H2]; in_list]].
  destruct (f_J J0 example_args) as [m|e] eqn:HJ.
  2:{ split; [exists 2%nat; reflexivity|].
      cbn [snd]. intros [= ->]. exfalso. revert HJ.
      unfold f_J, lambdify.
      destruct (bind_params _ example_args) as [b|e'] eqn:Hb; [|cbn in Hb; discriminate].
      destruct (excluded_middle_informative _); discriminate. }
  rewrite (eval_J_example J0 m HJ).
  destruct (fs !! "sympy_fcns/sb/fk_mid_static") as [fkm|] eqn:H3;
    [|split; [exists 2%nat; reflexivity|intros _; eexists; split; [|exact H3]; in_list]].
  destruct (fs !! "sympy_fcns/sb/fk_end_static") as [fke|] eqn:H4;
    [|split; [exists 3%nat; reflexivity|intros _; eexists; split; [|exact H4]; in_list]].
  destruct (fs !! "sympy_fcns/sb/J_mid_static") as [Jm|] eqn:H5;
    [|split; [exists 4%nat; reflexivity|intros _; eexists; split; [|exact H5]; in_list]].
  destruct (fs !! "sympy_fcns/sb/J_end_static") as [Je|] eqn:H6;
    [|split; [exists 5%nat; reflexivity|intros _; eexists; split; [|exact H6]; in_list]].
  split; [exists 6%nat; reflexivity|discriminate].
Qed.

Lemma X14_import_prefix_witness :
  exists path, In path module_paths /\ (∅ : files) !! path = None.
Proof.
  apply (proj2 (X14_import_prefix ∅)). reflexivity.
Defined.

End import_more.

(** ** The evaluation functions on an arbitrary cached expression *)

Section wrappers.

Import reference static_base.

Lemma bind_theta_p_error (theta_values p_vals : list R) (rest : list param)
    (more : list arg) :
  List.length theta_values <> 2%nat \/ List.length p_vals <> 4%nat ->
  bind_params (PVec theta :: PVec p :: rest)
    (AVec theta_values :: AVec p_vals :: more) = Raise ValueError.
Proof.
  intros H. cbn [bind_params bind_param].
  destruct (Nat.eqb_spec (List.length theta) (List.length theta_values)) as [E1|E1];
    [|reflexivity].
  destruct (Nat.eqb_spec (List.length p) (List.length p_vals)) as [E2|E2];
    [|reflexivity].
  cbn in E1, E2. destruct H; congruence.
Qed.

(** X15.  Whatever expression a slot holds, each of the six evaluation
    functions raises [ValueError] unless it is given exactly two
    coefficients and four parameters. *)
Theorem X15_wrong_lengths_raise (M : Matrix) (theta_values p_vals : list R)
    (s_val d_val : arg) :
  List.length theta_values <> 2%nat \/ List.length p_vals <> 4%nat ->
  eval_fk (f_FK M) [AVec theta_values; AVec p_vals; s_val; d_val]
  = Raise ValueError
  /\ eval_J (f_J M) [AVec theta_values; AVec p_vals; s_val; d_val]
     = Raise ValueError
  /\ eval_midpt (f_FK_mid M) [AVec theta_values; AVec p_vals] = Raise ValueError
  /\ eval_endpt (f_FK_end M) [AVec theta_values; AVec p_vals] = Raise ValueError
  /\ eval_J_midpt (f_J_mid M) [AVec theta_values; AVec p_vals] = Raise ValueError
  /\ eval_J_endpt (f_J_end M) [AVec theta_values; AVec p_vals] = Raise ValueError.
Proof.
  intros H.
  unfold eval_fk, eval_J, eval_midpt, eval_endpt, eval_J_midpt, eval_J_endpt,
    f_FK, f_J, f_FK_mid, f_FK_end, f_J_mid, f_J_end, lambdify.
  rewrite !bind_theta_p_error by exact H. repeat split.
Qed.

Lemma X15_wrong_lengths_raise_witness :
  eval_fk (f_FK (zeros 2 1))
    [AVec [0.1; 0.1; 0.1]; AVec [0.5; 0.5; 1; 0.1]; ANum 0.5; ANum 0.1]
  = Raise ValueError.
Proof.
  apply (X15_wrong_lengths_raise (zeros 2 1) [0.1; 0.1; 0.1] [0.5; 0.5; 1; 0.1]
           (ANum 0.5) (ANum 0.1)).
  left. intros H. discriminate H.
Defined.

End wrappers.

(** ** The script's own evaluation function and the cached symbols *)

Section script_functions.

Import static_base_model_gen reference.




(** X19.  Every expression that the script caches depends only on the
    symbols of its kind: [fk] and [J_static] on [theta], [p], [s], [d];
    [G] and [B] on [theta] and [p]; [Gv] also on [gamma]; [C] on [theta],
    [dtheta] and [p]; the identification expressions on [theta], [dtheta],
    [ddtheta] and [p], where [E_mL_0] is free of [m_L] and [E_mE_0] of
    [m_E].  None depends on the integration variable [v]. *)
Theorem X19_cached_symbols :
  all_supported fk (theta ++ p ++ [s; d])
  /\ all_supported J_static (theta ++ p ++ [s; d])
  /\ all_supported G (theta ++ p)
  /\ all_supported Gv (theta ++ [gamma] ++ p)
  /\ all_supported B (theta ++ p)
  /\ all_supported C (theta ++ dtheta ++ p)
  /\ all_supported Y (theta ++ dtheta ++ ddtheta ++ p)
  /\ all_supported dE_dmL (theta ++ dtheta ++ ddtheta ++ p)
  /\ all_supported dE_dmE (theta ++ dtheta ++ ddtheta ++ p)
  /\ all_supported E_mL_0 (theta ++ dtheta ++ ddtheta ++ [m_E; L; D])
  /\ all_supported E_mE_0 (theta ++ dtheta ++ ddtheta ++ [m_L; L; D]).
Proof.
  pose proof identification_supported as (HY & HL & _ & HE & _).
  assert (HmL : all_supported E
                  (m_L :: theta ++ dtheta ++ ddtheta ++ [m_E; L; D]))
    by (apply (all_supported_weaken _ _ _ E_supported); (intros ? ?; cbn in *; intuition)).
  assert (HmE : all_supported E
                  (m_E :: theta ++ dtheta ++ ddtheta ++ [m_L; L; D]))
    by (apply (all_supported_weaken _ _ _ E_supported); (intros ? ?; cbn in *; intuition)).
  repeat split;
    first [ exact fk_supported_sig | exact J_static_supported
          | exact G_supported | exact Gv_supported | exact B_supported
          | exact C_supported | exact HY | exact HL | exact HE
          | unfold E_mL_0, E_mE_0; auto 8 with supp ].
Qed.

End script_functions.

(** ** The reach of the spine *)

Section reach.

Import static_base_model_gen reference.

Lemma continuity_bend (rho : env) : continuity (bend rho).
Proof.
  apply (continuity_of_derivable _
           (fun t => rho theta_1 + 0.5 * rho theta_2 * (INR 2 * t ^ 1))).
  intros t.
  exact (derivable_pt_lim_plus
           (fun v => rho theta_0 + rho theta_1 * v)
           (mult_real_fct (0.5 * rho theta_2) (fun y => y ^ 2)) t _ _
           (derivable_affine (rho theta_0) (rho theta_1) t)
           (derivable_pt_lim_scal _ (0.5 * rho theta_2) t _
              (derivable_pt_lim_pow t 2))).
Qed.

Lemma continuity_sin_bend (rho : env) :
  continuity (fun t => Rtrigo_def.sin (bend rho t)).
Proof. exact (continuity_comp _ _ (continuity_bend rho) continuity_sin). Qed.

Lemma continuity_cos_bend (rho : env) :
  continuity (fun t => Rtrigo_def.cos (bend rho t)).
Proof. exact (continuity_comp _ _ (continuity_bend rho) continuity_cos). Qed.

Lemma integrable_continuous (f : R -> R) (x : R) :
  0 <= x -> continuity f -> Riemann_integrable f 0 x.
Proof.
  intros Hx Hf. apply continuity_implies_RiemannInt; [exact Hx|].
  intros y _. apply Hf.
Qed.


Lemma RInt_combination (a b : R) (f g : R -> R) (x : R) :
  0 <= x -> continuity f -> continuity g ->
  RInt (fun t => a * f t + b * g t) 0 x = a * RInt f 0 x + b * RInt g 0 x.
Proof.
  intros Hx Hf Hg.
  pose (prf := integrable_continuous f x Hx Hf).
  pose (prg := integrable_continuous g x Hx Hg).
  pose (pr0 := RiemannInt_P14 0 x 0).
  pose (pr1 := RiemannInt_P10 a pr0 prf).
  pose (pr2 := RiemannInt_P10 b pr1 prg).
  replace (fun t => a * f t + b * g t)
    with (fun t => fct_cte 0 t + a * f t + b * g t)
    by (apply functional_extensionality; intros t; unfold fct_cte; ring).
  rewrite (RInt_unique _ 0 x pr2), (RInt_unique f 0 x prf),
    (RInt_unique g 0 x prg).
  rewrite (RiemannInt_P13 pr1 prg pr2), (RiemannInt_P13 pr0 prf pr1).
  rewrite RiemannInt_P15. ring.
Qed.





End reach.

(** ** Scaling and mirror symmetry *)

Section scaling.

Import static_base_model_gen reference.

Lemma JTJ_mass_free (x : R) : all_supported (JTJ x) (theta ++ [L; D]).
Proof.
  assert (Hfk : all_supported fk (s :: d :: theta ++ [L; D]))
    by (apply (all_supported_weaken _ _ _ fk_supported);
        intros ? ?; cbn in *; intuition).
  unfold JTJ, J. auto 10 with supp.
Qed.

Lemma scale_masses_other (c : R) (rho : env) (x : symbol) :
  In x (theta ++ [L; D]) -> scale_masses c rho x = rho x.
Proof.
  intros H. unfold scale_masses.
  destruct (in_dec symbol_eq_dec x [m_L; m_E]) as [Hin|]; [|reflexivity].
  cbn in H, Hin. exfalso.
  repeat (destruct H as [<-|H]; [intuition discriminate|]). exact H.
Qed.

Lemma B_scale_masses (i j : nat) (c : R) (rho : env) :
  B.[i, j] (scale_masses c rho) = c * B.[i, j] rho.
Proof.
  rewrite !B_entry_eval. unfold inertia.
  rewrite (JTJ_mass_free 1 i j _ rho (scale_masses_other c rho)).
  change (scale_masses c rho m_E) with (c * rho m_E).
  change (scale_masses c rho m_L) with (c * rho m_L).
  rewrite Rmult_plus_distr_l, scal_sum. f_equal; [ring|].
  apply sum_eq. intros n _.
  rewrite (JTJ_mass_free _ i j _ rho (scale_masses_other c rho)).
  unfold Rdiv. ring.
Qed.

(** X21.  The inertia matrix is homogeneous of degree one in the two
    masses: multiplying [m_L] and [m_E] by [c] multiplies every entry by
    [c], and without mass the matrix is zero. *)
Theorem X21_inertia_linear_in_masses (i j : nat) (c : R) (rho : env) :
  B.[i, j] (scale_masses c rho) = c * B.[i, j] rho
  /\ B.[i, j] (scale_masses 0 rho) = 0.
Proof.
  split; [apply B_scale_masses|]. rewrite B_scale_masses. ring.
Qed.

(** X22.  The forward kinematics does not depend on the masses, and it
    scales with the lengths: multiplying [L] and [D] by [c] multiplies both
    coordinates by [c]. *)
Theorem X22_fk_scales_with_lengths (t0 t1 t2 mL mE mL' mE' l dd sv dv c : R) :
  fk.[0, 0] (valuation t0 t1 t2 mL' mE' (c * l) (c * dd) sv dv)
  = c * fk.[0, 0] (valuation t0 t1 t2 mL mE l dd sv dv)
  /\ fk.[1, 0] (valuation t0 t1 t2 mL' mE' (c * l) (c * dd) sv dv)
     = c * fk.[1, 0] (valuation t0 t1 t2 mL mE l dd sv dv).
Proof.
  rewrite !fk_x_eval, !fk_z_eval.
  set (rho' := valuation t0 t1 t2 mL' mE' (c * l) (c * dd) sv dv).
  set (rho := valuation t0 t1 t2 mL mE l dd sv dv).
  change (rho' s) with sv. change (rho s) with sv.
  change (rho' D) with (c * dd). change (rho D) with dd.
  change (rho' d) with dv. change (rho d) with dv.
  change (rho' L) with (c * l). change (rho L) with l.
  change (bend rho') with (bend rho).
  split; ring.
Qed.

Lemma bend_mirror (t0 t1 t2 mL mE l dd sv dv t : R) :
  bend (valuation (- t0) (- t1) (- t2) mL mE l dd sv (- dv)) t
  = - bend (valuation t0 t1 t2 mL mE l dd sv dv) t.
Proof.
  unfold bend.
  set (rho' := valuation (- t0) (- t1) (- t2) mL mE l dd sv (- dv)).
  set (rho := valuation t0 t1 t2 mL mE l dd sv dv).
  change (rho' theta_0) with (- t0). change (rho' theta_1) with (- t1).
  change (rho' theta_2) with (- t2). change (rho theta_0) with t0.
  change (rho theta_1) with t1. change (rho theta_2) with t2. ring.
Qed.

(** X23.  Bending the other way mirrors the appendage: for [0 <= s],
    negating [theta] and the offset [d] negates the [x] coordinate and
    keeps the [z] coordinate. *)
Theorem X23_fk_mirror (t0 t1 t2 mL mE l dd sv dv : R) :
  0 <= sv ->
  fk.[0, 0] (valuation (- t0) (- t1) (- t2) mL mE l dd sv (- dv))
  = - fk.[0, 0] (valuation t0 t1 t2 mL mE l dd sv dv)
  /\ fk.[1, 0] (valuation (- t0) (- t1) (- t2) mL mE l dd sv (- dv))
     = fk.[1, 0] (valuation t0 t1 t2 mL mE l dd sv dv).
Proof.
  intros Hs. rewrite !fk_x_eval, !fk_z_eval.
  set (rho' := valuation (- t0) (- t1) (- t2) mL mE l dd sv (- dv)).
  set (rho := valuation t0 t1 t2 mL mE l dd sv dv).
  change (rho' s) with sv. change (rho s) with sv.
  change (rho' D) with dd. change (rho D) with dd.
  change (rho' d) with (- dv). change (rho d) with dv.
  change (rho' L) with l. change (rho L) with l.
  replace (fun t => Rtrigo_def.sin (bend rho' t))
    with (fun t => -1 * Rtrigo_def.sin (bend rho t)
                   + 0 * Rtrigo_def.cos (bend rho t))
    by (apply functional_extensionality; intros t; unfold rho', rho;
        rewrite bend_mirror, sin_neg; ring).
  replace (fun t => Rtrigo_def.cos (bend rho' t))
    with (fun t => Rtrigo_def.cos (bend rho t))
    by (apply functional_extensionality; intros t; unfold rho', rho;
        rewrite bend_mirror, cos_neg; reflexivity).
  rewrite (RInt_combination (-1) 0 _ _ sv Hs
             (continuity_sin_bend rho) (continuity_cos_bend rho)).
  unfold rho' at 1 2, rho at 3 6. rewrite bend_mirror, sin_neg, cos_neg.
  fold rho. split; ring.
Qed.

Lemma X23_fk_mirror_witness :
  fk.[0, 0] (valuation (- (1)) (- (2)) (- (3)) 0.5 0.5 1 0.1 1 (- (0.1)))
  = - fk.[0, 0] (valuation 1 2 3 0.5 0.5 1 0.1 1 0.1)
  /\ fk.[1, 0] (valuation (- (1)) (- (2)) (- (3)) 0.5 0.5 1 0.1 1 (- (0.1)))
     = fk.[1, 0] (valuation 1 2 3 0.5 0.5 1 0.1 1 0.1).
Proof. apply (X23_fk_mirror 1 2 3 0.5 0.5 1 0.1 1 0.1). lra. Defined.

End scaling.
